(** * Line codec of kroll42/transmissao: a shallow embedding and its properties

  The repository holds three near-identical Python files.  The class
  [DigitalEncoder] is the same in all of them except for
  [manchester_decode]: [teste.py] has the first version, [teste1.py] and
  [teste2audio.py] share a second version with error recovery and padding.

  Python integers are [Z], Python lists of integers are [list Z], the two
  dispatch dictionaries are [gmap string _], [print] is an explicit list of
  emitted lines, and exceptions are the [Raises] outcome of [result]. *)

From Stdlib Require Import ZArith Floats.
From Stdlib Require HexadecimalString.
From Equations Require Import Equations.
From stdpp Require Import gmap strings list fin_maps.

Open Scope Z_scope.

(** ** Python values and outcomes *)

Module Py.

Inductive exn : Type :=
| ValueError (msg : string)
| IndexError
| OverflowError.

Inductive result (A : Type) : Type :=
| Returns (a : A)
| Raises (e : exn).
Arguments Returns {A} a.
Arguments Raises {A} e.

#[global] Instance result_ret : MRet result := @Returns.
#[global] Instance result_bind : MBind result :=
  λ A B f m, match m with Returns a => f a | Raises e => Raises e end.

(** Lines written to standard output by the decoders. *)
Inductive output : Type :=
| ErroManchester (i : Z)     (* "Erro na decodificação Manchester na posição {i}" *)
| AvisoManchester (i : Z)    (* "Aviso de erro na decodificação Manchester na posição {i}, corrigindo..." *)
| PaddingAdicionado (k : Z). (* "Adicionados {k} bits de padding para completar o último byte" *)

#[global] Instance output_eq_dec : EqDecision output.
Proof. solve_decision. Defined.

(** [len(l)] *)
Definition len (l : list Z) : Z := Z.of_nat (length l).

(** [l[i]]: indices below zero count from the end, anything out of range
    raises [IndexError]. *)
Definition getitem (l : list Z) (i : Z) : result Z :=
  let j := if i <? 0 then len l + i else i in
  if j <? 0 then Raises IndexError
  else match l !! Z.to_nat j with
       | Some x => Returns x
       | None => Raises IndexError
       end.

(** [range(start, stop)] *)
Definition range (start stop : Z) : list Z :=
  (λ k : nat, start + Z.of_nat k) <$> seq 0 (Z.to_nat (stop - start)).

(** [x != y] on integers *)
Definition neq (x y : Z) : bool := negb (x =? y).

(** [c1 and c2]: the right operand is evaluated only when the left one
    holds. *)
Definition and_then (c1 c2 : result bool) : result bool :=
  b ← c1; if b : bool then c2 else mret false.

(** [l[i] == v] *)
Definition item_is (l : list Z) (i v : Z) : result bool :=
  x ← getitem l i; mret (x =? v).

(** [range(start, stop, step)], for a step other than 0 *)
Definition range3 (start stop step : Z) : list Z :=
  let n := if 0 <? step then (stop - start + step - 1) `div` step
           else (start - stop - step - 1) `div` (- step) in
  (λ k : nat, start + Z.of_nat k * step) <$> seq 0 (Z.to_nat n).

(** [l[a:b]]: both bounds are clamped to the list. *)
Definition slice (l : list Z) (a b : Z) : list Z :=
  let clamp x := if x <? 0 then Z.max 0 (len l + x) else Z.min x (len l) in
  drop (Z.to_nat (clamp a)) (take (Z.to_nat (clamp b)) l).

(** [x << k] and [x >> k]: a negative shift count raises [ValueError]. *)
Definition lshift (x k : Z) : result Z :=
  if k <? 0 then Raises (ValueError "negative shift count")
  else Returns (Z.shiftl x k).

Definition rshift (x k : Z) : result Z :=
  if k <? 0 then Raises (ValueError "negative shift count")
  else Returns (Z.shiftr x k).

(** A Python [str] that holds arbitrary text is the list of its code points;
    [ord] of a character is then the character itself. *)
Definition text : Type := list Z.

(** [chr(i)]: CPython reads the argument as a C [int], so a value outside
    -2**31 .. 2**31 - 1 raises [OverflowError]; any other value outside
    [range(0x110000)] raises [ValueError]. *)
Definition chr (i : Z) : result Z :=
  if (i <? -2147483648) || (2147483647 <? i) then Raises OverflowError
  else if (0 <=? i) && (i <? 1114112) then Returns i
  else Raises (ValueError "chr() arg not in range(0x110000)").

(** [sum(bit << (top - j) for j, bit in enumerate(chunk))], with [j] the
    index of the head of [chunk] and [total] the sum so far. *)
Fixpoint sum_shifted (top : Z) (chunk : list Z) (j total : Z) : result Z :=
  match chunk with
  | [] => Returns total
  | bit :: chunk =>
      term ← lshift bit (top - j);
      sum_shifted top chunk (j + 1) (total + term)
  end.

(** [format(v, 'x')]: lower-case hexadecimal digits, with a minus sign for a
    negative number. *)
Definition format_x (v : Z) : string :=
  HexadecimalString.NilZero.string_of_int (Z.to_hex_int v).

(** [s.upper()] on an ASCII string *)
Definition upper_char (c : Ascii.ascii) : Ascii.ascii :=
  let n := Ascii.nat_of_ascii c in
  if ((97 <=? n) && (n <=? 122))%nat then Ascii.ascii_of_nat (n - 32) else c.

Fixpoint upper (s : string) : string :=
  match s with
  | EmptyString => EmptyString
  | String c s => String (upper_char c) (upper s)
  end.

End Py.
Import Py.

(** ** The methods shared by the three files *)

Module DigitalEncoder.

(** *** Encoders: [for bit in binary_data] with the running state and the
    list under construction as accumulators *)

Fixpoint manchester_encode_for (binary_data encoded : list Z) : list Z :=
  match binary_data with
  | [] => encoded
  | bit :: binary_data =>
      if bit =? 0 then manchester_encode_for binary_data (encoded ++ [0; 1])
      else manchester_encode_for binary_data (encoded ++ [1; 0])
  end.
Definition manchester_encode (binary_data : list Z) : list Z :=
  manchester_encode_for binary_data [].

Fixpoint nrz_encode_for (binary_data encoded : list Z) : list Z :=
  match binary_data with
  | [] => encoded
  | bit :: binary_data => nrz_encode_for binary_data (encoded ++ [bit])
  end.
Definition nrz_encode (binary_data : list Z) : list Z :=
  nrz_encode_for binary_data [].

Fixpoint nrzi_encode_for (binary_data : list Z) (level : Z) (encoded : list Z)
  : list Z :=
  match binary_data with
  | [] => encoded
  | bit :: binary_data =>
      if bit =? 0 then nrzi_encode_for binary_data level (encoded ++ [level])
      else
        let level := 1 - level in
        nrzi_encode_for binary_data level (encoded ++ [level])
  end.
Definition nrzi_encode (binary_data : list Z) : list Z :=
  nrzi_encode_for binary_data 0 [].

Fixpoint ami_encode_for (binary_data : list Z) (last_polarity : Z)
  (encoded : list Z) : list Z :=
  match binary_data with
  | [] => encoded
  | bit :: binary_data =>
      if bit =? 0 then ami_encode_for binary_data last_polarity (encoded ++ [0])
      else
        let last_polarity := - last_polarity in
        ami_encode_for binary_data last_polarity (encoded ++ [last_polarity])
  end.
Definition ami_encode (binary_data : list Z) : list Z :=
  ami_encode_for binary_data 1 [].

Fixpoint biphase_mark_encode_for (binary_data : list Z) (level : Z)
  (encoded : list Z) : list Z :=
  match binary_data with
  | [] => encoded
  | bit :: binary_data =>
      let level := if bit =? 1 then 1 - level else level in
      let encoded := encoded ++ [level] in
      let level := 1 - level in
      biphase_mark_encode_for binary_data level (encoded ++ [level])
  end.
Definition biphase_mark_encode (binary_data : list Z) : list Z :=
  biphase_mark_encode_for binary_data 0 [].

Fixpoint biphase_space_encode_for (binary_data : list Z) (level : Z)
  (encoded : list Z) : list Z :=
  match binary_data with
  | [] => encoded
  | bit :: binary_data =>
      let level := if bit =? 0 then 1 - level else level in
      let encoded := encoded ++ [level] in
      let level := 1 - level in
      biphase_space_encode_for binary_data level (encoded ++ [level])
  end.
Definition biphase_space_encode (binary_data : list Z) : list Z :=
  biphase_space_encode_for binary_data 0 [].

Fixpoint differential_manchester_encode_for (binary_data : list Z) (level : Z)
  (encoded : list Z) : list Z :=
  match binary_data with
  | [] => encoded
  | bit :: binary_data =>
      if bit =? 0 then
        let encoded := encoded ++ [level] in
        let level := 1 - level in
        differential_manchester_encode_for binary_data level (encoded ++ [level])
      else
        let level := 1 - level in
        let encoded := encoded ++ [level] in
        let level := 1 - level in
        differential_manchester_encode_for binary_data level (encoded ++ [level])
  end.
Definition differential_manchester_encode (binary_data : list Z) : list Z :=
  differential_manchester_encode_for binary_data 0 [].

(** *** Decoders *)

(** [return encoded_data] *)
Definition nrz_decode (encoded_data : list Z) : result (list Z) :=
  Returns encoded_data.

(** [for i in range(1, len(encoded_data))] *)
Fixpoint nrzi_decode_for (encoded_data : list Z) (indices : list Z)
  (decoded : list Z) : result (list Z) :=
  match indices with
  | [] => Returns decoded
  | i :: indices =>
      cur ← getitem encoded_data i;
      prev ← getitem encoded_data (i - 1);
      if neq cur prev then nrzi_decode_for encoded_data indices (decoded ++ [1])
      else nrzi_decode_for encoded_data indices (decoded ++ [0])
  end.
Definition nrzi_decode (encoded_data : list Z) : result (list Z) :=
  nrzi_decode_for encoded_data (range 1 (len encoded_data)) [].

Fixpoint ami_decode_for (encoded_data decoded : list Z) : list Z :=
  match encoded_data with
  | [] => decoded
  | level :: encoded_data =>
      if level =? 0 then ami_decode_for encoded_data (decoded ++ [0])
      else ami_decode_for encoded_data (decoded ++ [1])
  end.
Definition ami_decode (encoded_data : list Z) : result (list Z) :=
  Returns (ami_decode_for encoded_data []).

(** [while i < len(encoded_data) - 1: ...; i += 2] *)
Equations biphase_mark_decode_while (encoded_data : list Z) (i : Z)
  (decoded : list Z) : result (list Z)
  by wf (Z.to_nat (len encoded_data - i)) lt :=
  biphase_mark_decode_while encoded_data i decoded
    with Z_lt_dec i (len encoded_data - 1) := {
    | left _ =>
        transition ← and_then (mret (0 <? i))
                       (prev ← getitem encoded_data (i - 1);
                        cur ← getitem encoded_data i;
                        mret (neq prev cur));
        if transition : bool
        then biphase_mark_decode_while encoded_data (i + 2) (decoded ++ [1])
        else biphase_mark_decode_while encoded_data (i + 2) (decoded ++ [0])
    | right _ => Returns decoded }.
Next Obligation. lia. Qed.
Next Obligation. lia. Qed.
Definition biphase_mark_decode (encoded_data : list Z) : result (list Z) :=
  biphase_mark_decode_while encoded_data 0 [].

Equations biphase_space_decode_while (encoded_data : list Z) (i : Z)
  (decoded : list Z) : result (list Z)
  by wf (Z.to_nat (len encoded_data - i)) lt :=
  biphase_space_decode_while encoded_data i decoded
    with Z_lt_dec i (len encoded_data - 1) := {
    | left _ =>
        transition ← and_then (mret (0 <? i))
                       (prev ← getitem encoded_data (i - 1);
                        cur ← getitem encoded_data i;
                        mret (neq prev cur));
        if transition : bool
        then biphase_space_decode_while encoded_data (i + 2) (decoded ++ [0])
        else biphase_space_decode_while encoded_data (i + 2) (decoded ++ [1])
    | right _ => Returns decoded }.
Next Obligation. lia. Qed.
Next Obligation. lia. Qed.
Definition biphase_space_decode (encoded_data : list Z) : result (list Z) :=
  biphase_space_decode_while encoded_data 0 [].

(** [while i < len(encoded_data) - 3: ...; i += 2] *)
Equations differential_manchester_decode_while (encoded_data : list Z) (i : Z)
  (decoded : list Z) : result (list Z)
  by wf (Z.to_nat (len encoded_data - i)) lt :=
  differential_manchester_decode_while encoded_data i decoded
    with Z_lt_dec i (len encoded_data - 3) := {
    | left _ =>
        current_first ← getitem encoded_data i;
        next_first ← getitem encoded_data (i + 2);
        if current_first =? next_first
        then differential_manchester_decode_while encoded_data (i + 2)
               (decoded ++ [1])
        else differential_manchester_decode_while encoded_data (i + 2)
               (decoded ++ [0])
    | right _ => Returns decoded }.
Next Obligation. lia. Qed.
Next Obligation. lia. Qed.
Definition differential_manchester_decode (encoded_data : list Z)
  : result (list Z) :=
  differential_manchester_decode_while encoded_data 0 [].

(** *** The dispatch dictionaries of [__init__], [encode] and [decode] *)

Definition encoding_table : list (string * (list Z → list Z)) :=
  [("Manchester", manchester_encode);
   ("NRZ", nrz_encode);
   ("NRZI", nrzi_encode);
   ("AMI", ami_encode);
   ("Biphase_Mark", biphase_mark_encode);
   ("Biphase_Space", biphase_space_encode);
   ("Differential_Manchester", differential_manchester_encode)]%string.

Definition encoding_methods : gmap string (list Z → list Z) :=
  list_to_map encoding_table.

(** [list(self.encoding_methods.keys())]: the keys in insertion order. *)
Definition get_available_encodings : list string := encoding_table.*1.

Definition encode (binary_data : list Z) (method : string)
  : result (list Z) :=
  match encoding_methods !! method with
  | None =>
      Raises (ValueError ("Método de codificação '" +:+ method
                          +:+ "' não implementado"))
  | Some encoder => Returns (encoder binary_data)
  end.

(** What a call of a decoder leaves behind: the returned list and the
    printed lines, or an exception. *)
Definition decoder : Type := list Z → result (list Z * list output).

(** A decoder that prints nothing. *)
Definition silent (f : list Z → result (list Z)) : decoder :=
  λ encoded_data, decoded ← f encoded_data; Returns (decoded, []).

Section Dispatch.

(** The one method that differs between the files. *)
Variable manchester_decode : decoder.

Definition decoding_methods : gmap string decoder :=
  list_to_map
    [("Manchester", manchester_decode);
     ("NRZ", silent nrz_decode);
     ("NRZI", silent nrzi_decode);
     ("AMI", silent ami_decode);
     ("Biphase_Mark", silent biphase_mark_decode);
     ("Biphase_Space", silent biphase_space_decode);
     ("Differential_Manchester", silent differential_manchester_decode)]%string.

Definition decode (encoded_data : list Z) (method : string)
  : result (list Z * list output) :=
  match decoding_methods !! method with
  | None =>
      Raises (ValueError ("Método de decodificação '" +:+ method
                          +:+ "' não implementado"))
  | Some decoder => decoder encoded_data
  end.

End Dispatch.

End DigitalEncoder.

(** ** [manchester_decode] of teste.py *)

Module Teste.

(** The loop state is the list [decoded] and the lines printed so far. *)
Equations manchester_decode_while (encoded_data : list Z) (i : Z)
  (decoded : list Z) (stdout : list output) : result (list Z * list output)
  by wf (Z.to_nat (len encoded_data - i)) lt :=
  manchester_decode_while encoded_data i decoded stdout
    with Z_lt_dec i (len encoded_data - 1) := {
    | left _ =>
        low_high ← and_then (item_is encoded_data i 0)
                     (item_is encoded_data (i + 1) 1);
        if low_high : bool
        then manchester_decode_while encoded_data (i + 2) (decoded ++ [0]) stdout
        else
          high_low ← and_then (item_is encoded_data i 1)
                       (item_is encoded_data (i + 1) 0);
          if high_low : bool
          then manchester_decode_while encoded_data (i + 2) (decoded ++ [1])
                 stdout
          else manchester_decode_while encoded_data (i + 2) decoded
                 (stdout ++ [ErroManchester i])
    | right _ => Returns (decoded, stdout) }.
Next Obligation. lia. Qed.
Next Obligation. lia. Qed.
Next Obligation. lia. Qed.
Definition manchester_decode (encoded_data : list Z)
  : result (list Z * list output) :=
  manchester_decode_while encoded_data 0 [] [].

Definition decode : list Z → string → result (list Z * list output) :=
  DigitalEncoder.decode manchester_decode.

End Teste.

(** ** [manchester_decode] of teste1.py and teste2audio.py *)

Module Teste1.

(** [if decoded: decoded.append(decoded[-1]) else: decoded.append(0)] *)
Definition recover (decoded : list Z) : result (list Z) :=
  match decoded with
  | [] => Returns (decoded ++ [0])
  | _ :: _ => last_bit ← getitem decoded (-1); Returns (decoded ++ [last_bit])
  end.

Equations manchester_decode_while (encoded_data : list Z) (i : Z)
  (decoded : list Z) (stdout : list output) : result (list Z * list output)
  by wf (Z.to_nat (len encoded_data - i)) lt :=
  manchester_decode_while encoded_data i decoded stdout
    with Z_lt_dec i (len encoded_data - 1) := {
    | left _ =>
        low_high ← and_then (item_is encoded_data i 0)
                     (item_is encoded_data (i + 1) 1);
        if low_high : bool
        then manchester_decode_while encoded_data (i + 2) (decoded ++ [0]) stdout
        else
          high_low ← and_then (item_is encoded_data i 1)
                       (item_is encoded_data (i + 1) 0);
          if high_low : bool
          then manchester_decode_while encoded_data (i + 2) (decoded ++ [1])
                 stdout
          else
            decoded ← recover decoded;
            manchester_decode_while encoded_data (i + 2) decoded
              (stdout ++ [AvisoManchester i])
    | right _ => Returns (decoded, stdout) }.
Next Obligation. lia. Qed.
Next Obligation. lia. Qed.
Next Obligation. lia. Qed.

(** [if len(decoded) % 8 != 0: ...] *)
Definition pad (decoded : list Z) (stdout : list output)
  : list Z * list output :=
  if neq (len decoded `mod` 8) 0 then
    let padding_needed := 8 - len decoded `mod` 8 in
    (decoded ++ replicate (Z.to_nat padding_needed) 0,
     stdout ++ [PaddingAdicionado padding_needed])
  else (decoded, stdout).

Definition manchester_decode (encoded_data : list Z)
  : result (list Z * list output) :=
  '(decoded, stdout) ← manchester_decode_while encoded_data 0 [] [];
  Returns (pad decoded stdout).

Definition decode : list Z → string → result (list Z * list output) :=
  DigitalEncoder.decode manchester_decode.

End Teste1.

(** ** [TransmissionSystem.simulate_channel], the same in the three files *)

Module TransmissionSystem.

(** [noise_level] is a Python float, an IEEE 754 binary64 number.  The
    successive results of [np.random.random()] are given by [random]: the
    call number [k] returns [random k]. *)
Fixpoint simulate_channel_for (random : nat → float) (noise_level : float)
  (encoded_data : list Z) (calls : nat) (noisy_data : list Z) : list Z :=
  match encoded_data with
  | [] => noisy_data
  | bit :: encoded_data =>
      if PrimFloat.ltb (random calls) noise_level then
        if bit =? 0 then
          simulate_channel_for random noise_level encoded_data (S calls)
            (noisy_data ++ [1])
        else if bit =? 1 then
          simulate_channel_for random noise_level encoded_data (S calls)
            (noisy_data ++ [0])
        else
          simulate_channel_for random noise_level encoded_data (S calls)
            (noisy_data ++ [0])
      else
        simulate_channel_for random noise_level encoded_data (S calls)
          (noisy_data ++ [bit])
  end.

Definition simulate_channel (random : nat → float) (encoded_data : list Z)
  (noise_level : float) : list Z :=
  if PrimFloat.leb noise_level 0%float then encoded_data
  else simulate_channel_for random noise_level encoded_data 0%nat [].

(** [for i in range(7, -1, -1): binary.append((ascii_val >> i) & 1)] *)
Fixpoint string_to_binary_bits (ascii_val : Z) (indices : list Z)
  (binary : list Z) : result (list Z) :=
  match indices with
  | [] => Returns binary
  | i :: indices =>
      shifted ← rshift ascii_val i;
      string_to_binary_bits ascii_val indices (binary ++ [Z.land shifted 1])
  end.

(** [for char in text] *)
Fixpoint string_to_binary_for (input : text) (binary : list Z)
  : result (list Z) :=
  match input with
  | [] => Returns binary
  | char :: input =>
      let ascii_val := char in
      binary ← string_to_binary_bits ascii_val (range3 7 (-1) (-1)) binary;
      string_to_binary_for input binary
  end.

Definition string_to_binary (input : text) : result (list Z) :=
  string_to_binary_for input [].

(** [for i in range(0, len(binary), 8)] *)
Fixpoint binary_to_string_for (binary : list Z) (indices : list Z)
  (output_text : text) : result text :=
  match indices with
  | [] => Returns output_text
  | i :: indices =>
      if i + 8 <=? len binary then
        let byte := slice binary i (i + 8) in
        char_code ← sum_shifted 7 byte 0 0;
        char ← chr char_code;
        binary_to_string_for binary indices (output_text ++ [char])
      else binary_to_string_for binary indices output_text
  end.

Definition binary_to_string (binary : list Z) : result text :=
  binary_to_string_for binary (range3 0 (len binary) 8) [].

(** [for i in range(0, len(binary), 4)]; the result is an ASCII string. *)
Fixpoint binary_to_hex_for (binary : list Z) (indices : list Z)
  (hex_result : string) : result string :=
  match indices with
  | [] => Returns hex_result
  | i :: indices =>
      if i + 4 <=? len binary then
        let nibble := slice binary i (i + 4) in
        hex_value ← sum_shifted 3 nibble 0 0;
        binary_to_hex_for binary indices
          (hex_result +:+ upper (format_x hex_value))
      else binary_to_hex_for binary indices hex_result
  end.

Definition binary_to_hex (binary : list Z) : result string :=
  binary_to_hex_for binary (range3 0 (len binary) 4) "".

(** [transmit(input_data, encoding_method, noise_level, visualize=False)]:
    the interactive menu of the [visualize] branch is not entered.  [decode]
    is [self.encoder.decode], which differs between the files.  The result
    is the returned triple and the lines the decoder printed. *)
Definition transmit (decode : list Z → string → result (list Z * list output))
  (random : nat → float) (input_data : text) (encoding_method : string)
  (noise_level : float) : result ((text * list Z * list Z) * list output) :=
  binary_data ← string_to_binary input_data;
  encoded_data ← DigitalEncoder.encode binary_data encoding_method;
  let transmitted_data := simulate_channel random encoded_data noise_level in
  '(decoded_data, stdout) ← decode transmitted_data encoding_method;
  output_data ← binary_to_string decoded_data;
  Returns ((output_data, binary_data, decoded_data), stdout).

End TransmissionSystem.

(** ** Views used to state the properties

    Plain recursive readings of what the loops above compute, and the
    vocabulary of the properties.  Each reading is proved equal to the loop
    it describes before it is used. *)

Import DigitalEncoder TransmissionSystem.

(** The bits read off a level sequence, given the level before it: one bit
    per level, 1 exactly where the level differs from its predecessor. *)
Fixpoint transitions (prev : Z) (levels : list Z) : list Z :=
  match levels with
  | [] => []
  | cur :: levels => (if neq cur prev then 1 else 0) :: transitions cur levels
  end.

(** A complete symbol is valid when it is (0,1) or (1,0). *)
Definition low_high (a b : Z) : bool := (a =? 0) && (b =? 1).
Definition high_low (a b : Z) : bool := (a =? 1) && (b =? 0).

(** The bits teste1.py decodes from the complete symbols of [levels], where
    [prev] is the bit decoded last (0 at the start). *)
Fixpoint recovered_bits (prev : Z) (levels : list Z) : list Z :=
  match levels with
  | a :: b :: levels =>
      let bit := if low_high a b then 0 else if high_low a b then 1 else prev in
      bit :: recovered_bits bit levels
  | _ => []
  end.

(** The warnings teste1.py prints, [i] being the index of the first level. *)
Fixpoint warnings (i : Z) (levels : list Z) : list output :=
  match levels with
  | a :: b :: levels =>
      if low_high a b || high_low a b then warnings (i + 2) levels
      else AvisoManchester i :: warnings (i + 2) levels
  | _ => []
  end.

Definition last_bit (decoded : list Z) : Z := default 0 (last decoded).

(** The bits teste.py decodes: invalid symbols leave no bit behind. *)
Fixpoint valid_bits (levels : list Z) : list Z :=
  match levels with
  | a :: b :: levels =>
      if low_high a b then 0 :: valid_bits levels
      else if high_low a b then 1 :: valid_bits levels
      else valid_bits levels
  | _ => []
  end.

Fixpoint errors (i : Z) (levels : list Z) : list output :=
  match levels with
  | a :: b :: levels =>
      if low_high a b || high_low a b then errors (i + 2) levels
      else ErroManchester i :: errors (i + 2) levels
  | _ => []
  end.

(** How many times a line was printed. *)
Definition times_printed (line : output) (stdout : list output) : nat :=
  count_occ output_eq_dec stdout line.

(** The bits of [r] when it is a normal return. *)
Definition bits_of (r : result (list Z * list output)) : option (list Z) :=
  match r with
  | Returns (bits, _) => Some bits
  | Raises _ => None
  end.

(** Every complete symbol is (0,1) or (1,0). *)
Fixpoint valid_symbols (levels : list Z) : bool :=
  match levels with
  | a :: b :: levels => (low_high a b || high_low a b) && valid_symbols levels
  | _ => true
  end.

(** For each complete symbol, whether its first level differs from the
    level before it; [prev] is the level before the first symbol. *)
Fixpoint start_transitions (prev : Z) (levels : list Z) : list bool :=
  match levels with
  | a :: b :: levels => neq prev a :: start_transitions b levels
  | _ => []
  end.

Definition mark_bit (transition : bool) : Z := if transition then 1 else 0.
Definition space_bit (transition : bool) : Z := if transition then 0 else 1.

(** One bit per symbol that has a complete symbol after it: 1 when both
    symbols start on the same level. *)
Fixpoint next_symbol_bits (levels : list Z) : list Z :=
  match levels with
  | a :: _ :: ((c :: _ :: _) as levels) =>
      (if a =? c then 1 else 0) :: next_symbol_bits levels
  | _ => []
  end.

(** What a hit by the noise does to a level: 0 becomes 1, 1 becomes 0 and
    anything else (the -1 of AMI) becomes 0. *)
Definition flipped (bit : Z) : Z := if bit =? 0 then 1 else 0.

(** The number of padding bits the decoder reported. *)
Definition padding_reported (stdout : list output) : Z :=
  foldr (λ line total,
           match line with
           | PaddingAdicionado k => k + total
           | _ => total
           end) 0 stdout.

(** The decoded bits without the trailing padding that was reported. *)
Definition remove_padding (decoded : list Z) (stdout : list output) : list Z :=
  take (length decoded - Z.to_nat (padding_reported stdout)) decoded.

(** [decode(encode(B, S), S)] of teste1.py, padding removed. *)
Definition roundtrip (binary_data : list Z) (method : string)
  : result (list Z) :=
  encoded ← encode binary_data method;
  '(decoded, stdout) ← Teste1.decode encoded method;
  Returns (remove_padding decoded stdout).

Definition is_bit (b : Z) : Prop := b = 0 ∨ b = 1.

(** [f] over a list, left to right, stopping at the first exception. *)
Fixpoint map_result {A B : Type} (f : A → result B) (l : list A)
  : result (list B) :=
  match l with
  | [] => Returns []
  | x :: l => y ← f x; ys ← map_result f l; Returns (y :: ys)
  end.

(** The number a chunk of bits denotes when its head has weight [2 ^ top]. *)
Fixpoint weighted (top : Z) (chunk : list Z) : Z :=
  match chunk with
  | [] => 0
  | bit :: chunk => bit * 2 ^ top + weighted (top - 1) chunk
  end.

(** The character [binary_to_string] makes of one byte of bits. *)
Definition byte_char (byte : list Z) : result Z := chr (weighted 7 byte).

(** The eight bits [string_to_binary] makes of a character, high bit first. *)
Definition char_bits (c : Z) : list Z :=
  (λ i, Z.land (Z.shiftr c i) 1) <$> [7; 6; 5; 4; 3; 2; 1; 0].

(** The text of [binary_to_hex] for one nibble. *)
Definition nibble_text (nibble : list Z) : string :=
  upper (format_x (weighted 3 nibble)).

(** The upper-case hexadecimal digit of a number from 0 to 15. *)
Definition hex_digit (v : Z) : Ascii.ascii :=
  default (Ascii.ascii_of_nat 48) (String.list_ascii_of_string "0123456789ABCDEF" !! Z.to_nat v).

(** Two hexadecimal digits for the low byte of each character. *)
Fixpoint hex_dump (input : text) : string :=
  match input with
  | [] => ""
  | c :: input =>
      String (hex_digit ((c `mod` 256) `div` 16))
        (String (hex_digit (c `mod` 16)) (hex_dump input))
  end.

(** The text [binary_to_hex] makes of a run of nibbles. *)
Definition hex_text (cs : list (list Z)) : string :=
  foldr (λ c s, nibble_text c +:+ s) "" cs.

(** The two nibbles of a character, as [string_to_binary] lays them out. *)
Definition high_nibble (c : Z) : list Z :=
  (λ i, Z.land (Z.shiftr c i) 1) <$> [7; 6; 5; 4].
Definition low_nibble (c : Z) : list Z :=
  (λ i, Z.land (Z.shiftr c i) 1) <$> [3; 2; 1; 0].

(** The sixteen upper-case hexadecimal digits. *)
Definition hex_digits : list Ascii.ascii :=
  String.list_ascii_of_string "0123456789ABCDEF".

(** The number of levels an encoder emits for one bit. *)
Definition levels_per_bit (method : string) : Z :=
  if decide (method ∈ ["Manchester"; "Biphase_Mark"; "Biphase_Space";
                       "Differential_Manchester"]%string)
  then 2 else 1.

(** The levels of AMI. *)
Definition is_ternary (x : Z) : Prop := x = -1 ∨ x = 0 ∨ x = 1.

(** The seven low bits of a character, high bit first. *)
Definition low_bits (c : Z) : list Z :=
  (λ i, Z.land (Z.shiftr c i) 1) <$> [6; 5; 4; 3; 2; 1; 0].

(** ** Facts about the Python primitives *)

Section PyFacts.

Lemma len_nil : len [] = 0.
Proof. reflexivity. Qed.

Lemma len_cons (x : Z) (l : list Z) : len (x :: l) = len l + 1.
Proof. unfold len; simpl; lia. Qed.

Lemma len_app (l k : list Z) : len (l ++ k) = len l + len k.
Proof. unfold len; rewrite length_app; lia. Qed.

Lemma len_nonneg (l : list Z) : 0 ≤ len l.
Proof. unfold len; lia. Qed.

Lemma getitem_lookup (l : list Z) (i : Z) (x : Z) :
  0 ≤ i → l !! Z.to_nat i = Some x → getitem l i = Returns x.
Proof.
  intros Hi Hx. unfold getitem.
  destruct (Z.ltb_spec i 0); [lia|].
  destruct (Z.ltb_spec i 0); [lia|]. by rewrite Hx.
Qed.

(** The element that follows a prefix [pre] sits at index [len pre]. *)
Lemma getitem_middle (pre suf : list Z) (x : Z) (i : Z) :
  i = len pre → getitem (pre ++ x :: suf) i = Returns x.
Proof.
  intros ->. apply getitem_lookup; [apply len_nonneg|].
  unfold len. rewrite Nat2Z.id. apply list_lookup_middle. done.
Qed.

(** [l[-1]] is the last element of a non-empty list. *)
Lemma getitem_last (l : list Z) (x : Z) : getitem (l ++ [x]) (-1) = Returns x.
Proof.
  unfold getitem. simpl. rewrite len_app, len_cons, len_nil.
  pose proof (len_nonneg l).
  destruct (Z.ltb_spec (len l + (0 + 1) + -1) 0); [lia|].
  replace (Z.to_nat (len l + (0 + 1) + -1)) with (length l) by (unfold len; lia).
  by rewrite list_lookup_middle.
Qed.

Lemma range_nil (start stop : Z) : stop ≤ start → range start stop = [].
Proof.
  intros H. unfold range. by replace (Z.to_nat (stop - start)) with 0%nat by lia.
Qed.

Lemma range_cons (start stop : Z) :
  start < stop → range start stop = start :: range (start + 1) stop.
Proof.
  intros H. unfold range.
  replace (Z.to_nat (stop - start)) with (S (Z.to_nat (stop - (start + 1)))) by lia.
  rewrite <- cons_seq, <- fmap_S_seq. cbn [fmap list_fmap]. f_equal; [lia|].
  rewrite <- list_fmap_compose. apply list_fmap_ext. intros _ k _. simpl. lia.
Qed.

Lemma assoc_cons (pre : list Z) (x : Z) (suf : list Z) :
  pre ++ x :: suf = (pre ++ [x]) ++ suf.
Proof. by rewrite <- app_assoc. Qed.

End PyFacts.

(** ** NRZI *)

Section NRZI.

Lemma transitions_length (prev : Z) (levels : list Z) :
  length (transitions prev levels) = length levels.
Proof. revert prev; induction levels; intros; simpl; auto. Qed.

Lemma transitions_lookup (levels : list Z) :
  ∀ (first : Z) (i : nat) (cur prev : Z),
    levels !! i = Some cur → (first :: levels) !! i = Some prev →
    transitions first levels !! i = Some (if neq cur prev then 1 else 0).
Proof.
  induction levels as [|x levels IH]; intros first i cur prev Hc Hp; [done|].
  destruct i as [|i]; simpl in *.
  - by simplify_eq.
  - by apply IH.
Qed.

(** The loop of [nrzi_decode] from index [len pre + 1] on, where [prev] is
    the level at index [len pre]. *)
Lemma nrzi_decode_for_spec (suf : list Z) :
  ∀ (pre : list Z) (prev : Z) (decoded : list Z),
    nrzi_decode_for (pre ++ prev :: suf)
      (range (len pre + 1) (len (pre ++ prev :: suf))) decoded
    = Returns (decoded ++ transitions prev suf).
Proof.
  induction suf as [|cur suf IH]; intros pre prev decoded.
  - rewrite range_nil by (rewrite len_app, len_cons, len_nil; lia).
    simpl. by rewrite app_nil_r.
  - rewrite range_cons
      by (rewrite len_app, !len_cons; pose proof (len_nonneg suf); lia).
    cbn [nrzi_decode_for].
    assert (Hcur : getitem (pre ++ prev :: cur :: suf) (len pre + 1)
                   = Returns cur).
    { rewrite (assoc_cons pre). apply getitem_middle.
      rewrite len_app, len_cons, len_nil; lia. }
    assert (Hprev : getitem (pre ++ prev :: cur :: suf) (len pre + 1 - 1)
                    = Returns prev).
    { apply getitem_middle. lia. }
    rewrite Hcur. cbn [mbind result_bind]. rewrite Hprev.
    cbn [mbind result_bind transitions].
    specialize (IH (pre ++ [prev]) cur).
    rewrite <- (assoc_cons pre), len_app, len_cons, len_nil in IH.
    replace (len pre + (0 + 1) + 1) with (len pre + 1 + 1) in IH by lia.
    destruct (neq cur prev); rewrite IH, <- app_assoc; reflexivity.
Qed.

Lemma nrzi_decode_nil : nrzi_decode [] = Returns [].
Proof. reflexivity. Qed.

Lemma nrzi_decode_cons (first : Z) (levels : list Z) :
  nrzi_decode (first :: levels) = Returns (transitions first levels).
Proof.
  unfold nrzi_decode. exact (nrzi_decode_for_spec levels [] first []).
Qed.

(** C2. [nrzi_decode] of a sequence of N >= 1 levels returns N-1 bits: the
    first sample yields no bit, and the bit for sample i (1 <= i <= N-1),
    stored at position i-1, is 1 if level i differs from level i-1 and 0
    otherwise. *)
Theorem nrzi_decode_skips_first_sample (encoded_data : list Z)
  (Hnonempty : encoded_data ≠ []) :
  ∃ decoded : list Z,
    nrzi_decode encoded_data = Returns decoded
    ∧ len decoded = len encoded_data - 1
    ∧ ∀ (i : nat) (cur prev : Z),
        (1 ≤ i)%nat →
        encoded_data !! i = Some cur →
        encoded_data !! (i - 1)%nat = Some prev →
        decoded !! (i - 1)%nat = Some (if neq cur prev then 1 else 0).
Proof.
  destruct encoded_data as [|first levels]; [done|].
  exists (transitions first levels). split; [apply nrzi_decode_cons|]. split.
  - unfold len. rewrite transitions_length. simpl. lia.
  - intros i cur prev Hi Hc Hp. destruct i as [|i]; [lia|].
    simpl in *. rewrite Nat.sub_0_r in *. by apply transitions_lookup.
Qed.

Lemma nrzi_decode_skips_first_sample_witness :
  [1; 0; 0; 1] ≠ []
  ∧ ∃ decoded : list Z,
      nrzi_decode [1; 0; 0; 1] = Returns decoded
      ∧ len decoded = len [1; 0; 0; 1] - 1
      ∧ ∀ (i : nat) (cur prev : Z),
          (1 ≤ i)%nat →
          [1; 0; 0; 1] !! i = Some cur →
          [1; 0; 0; 1] !! (i - 1)%nat = Some prev →
          decoded !! (i - 1)%nat = Some (if neq cur prev then 1 else 0).
Proof.
  split; [discriminate|].
  apply (nrzi_decode_skips_first_sample [1; 0; 0; 1]). discriminate.
Defined.

(** C3. [nrzi_encode] of [1,1,0,1] is [1,0,0,1] as the example says, but
    [nrzi_decode] of [1,0,0,1] is the three bits [1,0,1], not [1,1,0,1]:
    the loop starts at index 1 and never compares the first level with
    the encoder's initial level 0, so the first bit is lost. *)
Theorem nrzi_worked_example :
  nrzi_encode [1; 1; 0; 1] = [1; 0; 0; 1]
  ∧ nrzi_decode [1; 0; 0; 1] = Returns [1; 0; 1]
  ∧ nrzi_decode [1; 0; 0; 1] ≠ Returns [1; 1; 0; 1].
Proof. repeat split. discriminate. Qed.

End NRZI.

(** ** Manchester *)

Section Manchester.

(** Induction over a level sequence two levels at a time. *)
Lemma pair_induction (P : list Z → Prop) :
  P [] → (∀ x, P [x]) → (∀ a b l, P l → P (a :: b :: l)) → ∀ l, P l.
Proof.
  intros Hnil Hone Hstep l.
  cut (P l ∧ ∀ x, P (x :: l)); [tauto|].
  induction l as [|y l [IH1 IH2]]; split; auto.
Qed.

Lemma low_high_spec (d : list Z) (i a b : Z) :
  getitem d i = Returns a → getitem d (i + 1) = Returns b →
  and_then (item_is d i 0) (item_is d (i + 1) 1) = Returns (low_high a b).
Proof.
  intros Ha Hb. unfold and_then, item_is, low_high. rewrite Ha.
  cbn [mbind result_bind mret result_ret].
  destruct (a =? 0); [|done]. rewrite Hb. done.
Qed.

Lemma high_low_spec (d : list Z) (i a b : Z) :
  getitem d i = Returns a → getitem d (i + 1) = Returns b →
  and_then (item_is d i 1) (item_is d (i + 1) 0) = Returns (high_low a b).
Proof.
  intros Ha Hb. unfold and_then, item_is, high_low. rewrite Ha.
  cbn [mbind result_bind mret result_ret].
  destruct (a =? 1); [|done]. rewrite Hb. done.
Qed.

Lemma recover_spec (decoded : list Z) :
  Teste1.recover decoded = Returns (decoded ++ [last_bit decoded]).
Proof.
  destruct decoded as [|x decoded _] using rev_ind; [done|].
  unfold Teste1.recover, last_bit. rewrite last_snoc. simpl.
  destruct (decoded ++ [x]) eqn:E; [by destruct decoded|].
  rewrite <- E, getitem_last. done.
Qed.

(** One turn of the loop of teste1.py. *)
Lemma teste1_while_unfold (d : list Z) (i : Z) (decoded : list Z)
  (stdout : list output) :
  Teste1.manchester_decode_while d i decoded stdout =
  if i <? len d - 1 then
    lh ← and_then (item_is d i 0) (item_is d (i + 1) 1);
    if lh : bool
    then Teste1.manchester_decode_while d (i + 2) (decoded ++ [0]) stdout
    else
      hl ← and_then (item_is d i 1) (item_is d (i + 1) 0);
      if hl : bool
      then Teste1.manchester_decode_while d (i + 2) (decoded ++ [1]) stdout
      else
        decoded ← Teste1.recover decoded;
        Teste1.manchester_decode_while d (i + 2) decoded
          (stdout ++ [AvisoManchester i])
  else Returns (decoded, stdout).
Proof.
  rewrite Teste1.manchester_decode_while_equation_1.
  destruct (Z_lt_dec _ _), (Z.ltb_spec i (len d - 1)); try lia; reflexivity.
Qed.

Lemma teste1_while_spec (suf : list Z) :
  ∀ (pre decoded : list Z) (stdout : list output),
    Teste1.manchester_decode_while (pre ++ suf) (len pre) decoded stdout
    = Returns (decoded ++ recovered_bits (last_bit decoded) suf,
               stdout ++ warnings (len pre) suf).
Proof.
  induction suf as [|x|a b suf IH] using pair_induction;
    intros pre decoded stdout; rewrite teste1_while_unfold.
  - rewrite app_nil_r. destruct (Z.ltb_spec (len pre) (len pre - 1)); [lia|].
    simpl. by rewrite !app_nil_r.
  - rewrite len_app, len_cons, len_nil.
    destruct (Z.ltb_spec (len pre) (len pre + (0 + 1) - 1)); [lia|].
    simpl. by rewrite !app_nil_r.
  - rewrite len_app, !len_cons. pose proof (len_nonneg suf).
    destruct (Z.ltb_spec (len pre) (len pre + (len suf + 1 + 1) - 1)); [|lia].
    assert (Ha : getitem (pre ++ a :: b :: suf) (len pre) = Returns a)
      by (by apply getitem_middle).
    assert (Hb : getitem (pre ++ a :: b :: suf) (len pre + 1) = Returns b).
    { rewrite (assoc_cons pre). apply getitem_middle.
      rewrite len_app, len_cons, len_nil. lia. }
    rewrite (low_high_spec _ _ a b Ha Hb), (high_low_spec _ _ a b Ha Hb).
    rewrite recover_spec. cbn [mbind result_bind].
    assert (Hpre : pre ++ a :: b :: suf = (pre ++ [a; b]) ++ suf)
      by (by rewrite <- app_assoc).
    assert (Hlen : len pre + 2 = len (pre ++ [a; b]))
      by (rewrite len_app, !len_cons, len_nil; lia).
    rewrite Hpre, Hlen. cbn [recovered_bits warnings].
    destruct (low_high a b); [|destruct (high_low a b)];
      cbn [orb mbind result_bind]; rewrite IH; unfold last_bit;
      rewrite last_snoc, <- !app_assoc; simpl; try done.
    all: try by rewrite Hlen.
Qed.

(** What teste1.py returns before and after padding. *)
Lemma teste1_manchester_decode_spec (encoded_data : list Z) :
  Teste1.manchester_decode encoded_data
  = Returns (Teste1.pad (recovered_bits 0 encoded_data)
               (warnings 0 encoded_data)).
Proof.
  unfold Teste1.manchester_decode.
  pose proof (teste1_while_spec encoded_data [] [] []) as H.
  cbn [app] in H. change (len []) with 0 in H. by rewrite H.
Qed.

Lemma teste_while_unfold (d : list Z) (i : Z) (decoded : list Z)
  (stdout : list output) :
  Teste.manchester_decode_while d i decoded stdout =
  if i <? len d - 1 then
    lh ← and_then (item_is d i 0) (item_is d (i + 1) 1);
    if lh : bool
    then Teste.manchester_decode_while d (i + 2) (decoded ++ [0]) stdout
    else
      hl ← and_then (item_is d i 1) (item_is d (i + 1) 0);
      if hl : bool
      then Teste.manchester_decode_while d (i + 2) (decoded ++ [1]) stdout
      else Teste.manchester_decode_while d (i + 2) decoded
             (stdout ++ [ErroManchester i])
  else Returns (decoded, stdout).
Proof.
  rewrite Teste.manchester_decode_while_equation_1.
  destruct (Z_lt_dec _ _), (Z.ltb_spec i (len d - 1)); try lia; reflexivity.
Qed.

Lemma teste_while_spec (suf : list Z) :
  ∀ (pre decoded : list Z) (stdout : list output),
    Teste.manchester_decode_while (pre ++ suf) (len pre) decoded stdout
    = Returns (decoded ++ valid_bits suf, stdout ++ errors (len pre) suf).
Proof.
  induction suf as [|x|a b suf IH] using pair_induction;
    intros pre decoded stdout; rewrite teste_while_unfold.
  - rewrite app_nil_r. destruct (Z.ltb_spec (len pre) (len pre - 1)); [lia|].
    simpl. by rewrite !app_nil_r.
  - rewrite len_app, len_cons, len_nil.
    destruct (Z.ltb_spec (len pre) (len pre + (0 + 1) - 1)); [lia|].
    simpl. by rewrite !app_nil_r.
  - rewrite len_app, !len_cons. pose proof (len_nonneg suf).
    destruct (Z.ltb_spec (len pre) (len pre + (len suf + 1 + 1) - 1)); [|lia].
    assert (Ha : getitem (pre ++ a :: b :: suf) (len pre) = Returns a)
      by (by apply getitem_middle).
    assert (Hb : getitem (pre ++ a :: b :: suf) (len pre + 1) = Returns b).
    { rewrite (assoc_cons pre). apply getitem_middle.
      rewrite len_app, len_cons, len_nil. lia. }
    rewrite (low_high_spec _ _ a b Ha Hb), (high_low_spec _ _ a b Ha Hb).
    cbn [mbind result_bind].
    assert (Hpre : pre ++ a :: b :: suf = (pre ++ [a; b]) ++ suf)
      by (by rewrite <- app_assoc).
    assert (Hlen : len pre + 2 = len (pre ++ [a; b]))
      by (rewrite len_app, !len_cons, len_nil; lia).
    rewrite Hpre, Hlen. cbn [valid_bits errors].
    destruct (low_high a b); [|destruct (high_low a b)];
      cbn [orb mbind result_bind]; rewrite IH, <- ?app_assoc; simpl; try done.
    all: try by rewrite Hlen.
Qed.

Lemma teste_manchester_decode_spec (encoded_data : list Z) :
  Teste.manchester_decode encoded_data
  = Returns (valid_bits encoded_data, errors 0 encoded_data).
Proof. exact (teste_while_spec encoded_data [] [] []). Qed.

(** *** Recovery from invalid symbols in teste1.py *)

Lemma invalid_symbol (a b : Z) :
  (a, b) ≠ (0, 1) → (a, b) ≠ (1, 0) →
  low_high a b = false ∧ high_low a b = false.
Proof.
  intros H01 H10. unfold low_high, high_low. split.
  - destruct (Z.eqb_spec a 0), (Z.eqb_spec b 1); subst; try done.
  - destruct (Z.eqb_spec a 1), (Z.eqb_spec b 0); subst; try done.
Qed.

Lemma lookup_symbol (x y : Z) (levels : list Z) (k : nat) :
  (x :: y :: levels) !! (2 * S k)%nat = levels !! (2 * k)%nat
  ∧ (x :: y :: levels) !! (2 * S k + 1)%nat = levels !! (2 * k + 1)%nat.
Proof.
  replace (2 * S k)%nat with (S (S (2 * k))) by lia.
  replace (S (S (2 * k)) + 1)%nat with (S (S (2 * k + 1))) by lia. done.
Qed.

(** The bit decoded for an invalid symbol repeats the one before it. *)
Lemma recovered_bits_repeat (k : nat) :
  ∀ (prev : Z) (levels : list Z) (a b : Z),
    levels !! (2 * k)%nat = Some a → levels !! (2 * k + 1)%nat = Some b →
    low_high a b = false → high_low a b = false →
    ∃ bit, recovered_bits prev levels !! k = Some bit
           ∧ (prev :: recovered_bits prev levels) !! k = Some bit.
Proof.
  induction k as [|k IH]; intros prev levels a b Ha Hb Hlh Hhl.
  - destruct levels as [|x [|y levels]]; simplify_eq/=.
    rewrite Hlh, Hhl. by exists prev.
  - destruct levels as [|x [|y levels]]; try done.
    destruct (lookup_symbol x y levels k) as [E1 E2].
    rewrite E1 in Ha. rewrite E2 in Hb.
    cbn [recovered_bits]. set (bit0 := if low_high x y then _ else _).
    destruct (IH bit0 levels a b Ha Hb Hlh Hhl) as (bit & H1 & H2).
    exists bit. done.
Qed.

Lemma warnings_later (levels : list Z) :
  ∀ i j : Z, j < i → times_printed (AvisoManchester j) (warnings i levels) = 0%nat.
Proof.
  unfold times_printed.
  induction levels as [|x|a b levels IH] using pair_induction;
    intros i j Hj; try done.
  cbn [warnings]. destruct (low_high a b || high_low a b).
  - apply IH. lia.
  - rewrite count_occ_cons_neq by (intros [=]; lia). apply IH. lia.
Qed.

(** An invalid symbol is reported once, with the index of its first level. *)
Lemma warnings_once (k : nat) :
  ∀ (i : Z) (levels : list Z) (a b : Z),
    levels !! (2 * k)%nat = Some a → levels !! (2 * k + 1)%nat = Some b →
    low_high a b = false → high_low a b = false →
    times_printed (AvisoManchester (i + 2 * Z.of_nat k)) (warnings i levels)
    = 1%nat.
Proof.
  unfold times_printed.
  induction k as [|k IH]; intros i levels a b Ha Hb Hlh Hhl.
  - destruct levels as [|x [|y levels]]; simplify_eq/=.
    rewrite Hlh, Hhl. cbn [orb].
    replace (i + 2 * Z.of_nat 0) with i by lia.
    rewrite count_occ_cons_eq by done. f_equal.
    apply (warnings_later levels). lia.
  - destruct levels as [|x [|y levels]]; try done.
    destruct (lookup_symbol x y levels k) as [E1 E2].
    rewrite E1 in Ha. rewrite E2 in Hb.
    cbn [warnings].
    replace (i + 2 * Z.of_nat (S k)) with (i + 2 + 2 * Z.of_nat k) by lia.
    destruct (low_high x y || high_low x y).
    + by apply (IH (i + 2) levels a b).
    + rewrite count_occ_cons_neq by (intros [=]; lia).
      by apply (IH (i + 2) levels a b).
Qed.

Lemma pad_bits (decoded : list Z) (stdout : list output) :
  ∃ zeros : nat, (Teste1.pad decoded stdout).1 = decoded ++ replicate zeros 0.
Proof.
  unfold Teste1.pad. destruct (neq _ _); simpl; eauto.
  exists 0%nat. by rewrite app_nil_r.
Qed.

Lemma pad_warnings (decoded : list Z) (stdout : list output) (j : Z) :
  times_printed (AvisoManchester j) (Teste1.pad decoded stdout).2
  = times_printed (AvisoManchester j) stdout.
Proof.
  unfold Teste1.pad, times_printed. destruct (neq _ _); simpl; [|done].
  rewrite count_occ_app. simpl. lia.
Qed.

(** The same two facts for the error lines of teste.py. *)
Lemma errors_later (levels : list Z) :
  ∀ i j : Z, j < i → times_printed (ErroManchester j) (errors i levels) = 0%nat.
Proof.
  unfold times_printed.
  induction levels as [|x|a b levels IH] using pair_induction;
    intros i j Hj; try done.
  cbn [errors]. destruct (low_high a b || high_low a b).
  - apply IH. lia.
  - rewrite count_occ_cons_neq by (intros [=]; lia). apply IH. lia.
Qed.

Lemma errors_once (k : nat) :
  ∀ (i : Z) (levels : list Z) (a b : Z),
    levels !! (2 * k)%nat = Some a → levels !! (2 * k + 1)%nat = Some b →
    low_high a b = false → high_low a b = false →
    times_printed (ErroManchester (i + 2 * Z.of_nat k)) (errors i levels)
    = 1%nat.
Proof.
  unfold times_printed.
  induction k as [|k IH]; intros i levels a b Ha Hb Hlh Hhl.
  - destruct levels as [|x [|y levels]]; simplify_eq/=.
    rewrite Hlh, Hhl. cbn [orb].
    replace (i + 2 * Z.of_nat 0) with i by lia.
    rewrite count_occ_cons_eq by done. f_equal.
    apply (errors_later levels). lia.
  - destruct levels as [|x [|y levels]]; try done.
    destruct (lookup_symbol x y levels k) as [E1 E2].
    rewrite E1 in Ha. rewrite E2 in Hb.
    cbn [errors].
    replace (i + 2 * Z.of_nat (S k)) with (i + 2 + 2 * Z.of_nat k) by lia.
    destruct (low_high x y || high_low x y).
    + by apply (IH (i + 2) levels a b).
    + rewrite count_occ_cons_neq by (intros [=]; lia).
      by apply (IH (i + 2) levels a b).
Qed.

(** In teste.py every complete symbol leaves either a bit or an error line. *)
Lemma errors_account (levels : list Z) :
  ∀ i, (length (valid_bits levels) + length (errors i levels)
        = Nat.div2 (length levels))%nat.
Proof.
  induction levels as [|x|a b levels IH] using pair_induction; intros i;
    try done.
  cbn [valid_bits errors length Nat.div2]. specialize (IH (i + 2)).
  destruct (low_high a b); [|destruct (high_low a b)]; simpl; lia.
Qed.

(** C4, as the code has it.  For a complete symbol other than (0,1) and
    (1,0), [manchester_decode] of teste1.py (and teste2audio.py) goes on
    decoding: the bit it appends for the symbol repeats the bit decoded just
    before it, or is 0 when the symbol is the first one, and exactly one
    warning carrying the position of the symbol is printed.
    [manchester_decode] of teste.py goes on as well and prints exactly one
    error line for the symbol, but appends no bit for it: each complete
    symbol leaves either a bit or an error line. *)
Theorem manchester_decode_recovers (encoded_data : list Z) (k : nat) (a b : Z)
  (Hfirst : encoded_data !! (2 * k)%nat = Some a)
  (Hsecond : encoded_data !! (2 * k + 1)%nat = Some b)
  (Hnot01 : (a, b) ≠ (0, 1)) (Hnot10 : (a, b) ≠ (1, 0)) :
  (∃ (decoded : list Z) (stdout : list output) (bit : Z),
      Teste1.manchester_decode encoded_data = Returns (decoded, stdout)
      ∧ decoded !! k = Some bit
      ∧ match k with
        | O => bit = 0
        | S k' => decoded !! k' = Some bit
        end
      ∧ times_printed (AvisoManchester (2 * Z.of_nat k)) stdout = 1%nat)
  ∧ (∃ (decoded : list Z) (stdout : list output),
        Teste.manchester_decode encoded_data = Returns (decoded, stdout)
        ∧ times_printed (ErroManchester (2 * Z.of_nat k)) stdout = 1%nat
        ∧ (length decoded + length stdout
           = Nat.div2 (length encoded_data))%nat).
Proof.
  destruct (invalid_symbol a b Hnot01 Hnot10) as [Hlh Hhl]. split.
  - rewrite teste1_manchester_decode_spec.
    destruct (recovered_bits_repeat k 0 encoded_data a b Hfirst Hsecond Hlh Hhl)
      as (bit & Hbit & Hprev).
    destruct (pad_bits (recovered_bits 0 encoded_data) (warnings 0 encoded_data))
      as [zeros Hpad].
    destruct (Teste1.pad _ _) as [decoded stdout] eqn:E. simpl in Hpad.
    subst decoded.
    exists (recovered_bits 0 encoded_data ++ replicate zeros 0), stdout, bit.
    split; [done|]. split; [by apply lookup_app_l_Some|]. split.
    + destruct k as [|k']; simpl in Hprev; [by simplify_eq|].
      by apply lookup_app_l_Some.
    + replace stdout
        with (Teste1.pad (recovered_bits 0 encoded_data)
                (warnings 0 encoded_data)).2
        by (by rewrite E).
      rewrite pad_warnings.
      exact (warnings_once k 0 encoded_data a b Hfirst Hsecond Hlh Hhl).
  - rewrite teste_manchester_decode_spec.
    exists (valid_bits encoded_data), (errors 0 encoded_data).
    split; [done|]. split.
    + exact (errors_once k 0 encoded_data a b Hfirst Hsecond Hlh Hhl).
    + apply errors_account.
Qed.

Lemma manchester_decode_recovers_witness :
  [1; 1; 1; 0] !! (2 * 0)%nat = Some 1
  ∧ [1; 1; 1; 0] !! (2 * 0 + 1)%nat = Some 1
  ∧ (1, 1) ≠ (0, 1) ∧ (1, 1) ≠ (1, 0)
  ∧ (∃ (decoded : list Z) (stdout : list output) (bit : Z),
        Teste1.manchester_decode [1; 1; 1; 0] = Returns (decoded, stdout)
        ∧ decoded !! 0%nat = Some bit
        ∧ bit = 0
        ∧ times_printed (AvisoManchester (2 * Z.of_nat 0)) stdout = 1%nat)
  ∧ (∃ (decoded : list Z) (stdout : list output),
        Teste.manchester_decode [1; 1; 1; 0] = Returns (decoded, stdout)
        ∧ times_printed (ErroManchester (2 * Z.of_nat 0)) stdout = 1%nat
        ∧ (length decoded + length stdout
           = Nat.div2 (length [1; 1; 1; 0]))%nat).
Proof.
  split; [reflexivity|]. split; [reflexivity|].
  split; [discriminate|]. split; [discriminate|].
  apply (manchester_decode_recovers [1; 1; 1; 0] 0 1 1);
    (reflexivity || discriminate).
Defined.

(** C4 as stated fails on teste.py: the first symbol of [1,1,1,0] is (1,1),
    and the bit returned at position 0 is the 1 of the second symbol, not a
    recovery bit 0. *)
Lemma teste_manchester_decode_drops_symbol :
  [1; 1; 1; 0] !! 0%nat = Some 1 ∧ [1; 1; 1; 0] !! 1%nat = Some 1
  ∧ ∃ (decoded : list Z) (stdout : list output),
      Teste.manchester_decode [1; 1; 1; 0] = Returns (decoded, stdout)
      ∧ decoded = [1] ∧ decoded !! 0%nat ≠ Some 0
      ∧ stdout = [ErroManchester 0].
Proof.
  split; [done|]. split; [done|].
  exists [1], [ErroManchester 0]. repeat split. discriminate.
Qed.

(** The first symbol is (1,1): bit 0 at position 0, and one warning for
    position 0, whatever follows. *)
Lemma manchester_decode_invalid_first_symbol (rest : list Z) :
  ∃ (decoded : list Z) (stdout : list output),
    Teste1.manchester_decode (1 :: 1 :: rest) = Returns (decoded, stdout)
    ∧ decoded !! 0%nat = Some 0
    ∧ times_printed (AvisoManchester 0) stdout = 1%nat.
Proof.
  rewrite teste1_manchester_decode_spec.
  destruct (pad_bits (recovered_bits 0 (1 :: 1 :: rest))
              (warnings 0 (1 :: 1 :: rest))) as [zeros Hpad].
  pose proof (pad_warnings (recovered_bits 0 (1 :: 1 :: rest))
                (warnings 0 (1 :: 1 :: rest)) 0) as Hw.
  destruct (Teste1.pad _ _) as [decoded stdout]. simpl in Hpad, Hw.
  exists decoded, stdout. split; [done|]. subst decoded. split; [done|].
  rewrite Hw. exact (warnings_once 0 0 (1 :: 1 :: rest) 1 1 eq_refl eq_refl
                       eq_refl eq_refl).
Qed.

(** *** Padding in teste1.py *)

Lemma len_replicate (n : nat) (x : Z) : len (replicate n x) = Z.of_nat n.
Proof. unfold len. by rewrite length_replicate. Qed.

(** The number of 0-bits [pad] appends brings the length to the next
    multiple of 8. *)
Lemma pad_spec (decoded : list Z) (stdout : list output) :
  let zeros := (- len decoded) `mod` 8 in
  Teste1.pad decoded stdout
  = (decoded ++ replicate (Z.to_nat zeros) 0,
     stdout ++ if decide (zeros = 0) then [] else [PaddingAdicionado zeros]).
Proof.
  intros zeros. unfold Teste1.pad, neq.
  destruct (Z.eqb_spec (len decoded `mod` 8) 0) as [E|E]; simpl.
  - assert (zeros = 0) as -> by (unfold zeros; Z.to_euclidean_division_equations; lia).
    simpl. by rewrite !app_nil_r.
  - assert (zeros = 8 - len decoded `mod` 8) as Hz
      by (unfold zeros; Z.to_euclidean_division_equations; lia).
    rewrite Hz. destruct (decide _) as [E0|_]; [|done].
    Z.to_euclidean_division_equations; lia.
Qed.

Lemma teste1_decode_manchester (encoded_data : list Z) :
  Teste1.decode encoded_data "Manchester"
  = Teste1.manchester_decode encoded_data.
Proof. reflexivity. Qed.

(** Decoding with any of the other six schemes goes straight to that
    scheme's decoder and prints nothing. *)
Lemma teste1_decode_others (encoded_data : list Z) :
  Teste1.decode encoded_data "NRZ" = silent nrz_decode encoded_data
  ∧ Teste1.decode encoded_data "NRZI" = silent nrzi_decode encoded_data
  ∧ Teste1.decode encoded_data "AMI" = silent ami_decode encoded_data
  ∧ Teste1.decode encoded_data "Biphase_Mark"
    = silent biphase_mark_decode encoded_data
  ∧ Teste1.decode encoded_data "Biphase_Space"
    = silent biphase_space_decode encoded_data
  ∧ Teste1.decode encoded_data "Differential_Manchester"
    = silent differential_manchester_decode encoded_data.
Proof. repeat split. Qed.

(** *** teste.py against teste1.py *)

Lemma recovered_bits_length (levels : list Z) :
  ∀ prev, length (recovered_bits prev levels) = Nat.div2 (length levels).
Proof.
  induction levels as [|x|a b levels IH] using pair_induction; intros prev;
    try done.
  simpl. by rewrite IH.
Qed.

Lemma valid_bits_length (levels : list Z) :
  (length (valid_bits levels) ≤ Nat.div2 (length levels))%nat
  ∧ (length (valid_bits levels) = Nat.div2 (length levels) →
     valid_symbols levels = true).
Proof.
  induction levels as [|x|a b levels [IH1 IH2]] using pair_induction;
    try done.
  cbn [valid_bits valid_symbols length Nat.div2].
  destruct (low_high a b); [|destruct (high_low a b)]; simpl; split;
    try lia; intros H; apply IH2; lia.
Qed.

Lemma valid_symbols_agree (levels : list Z) :
  valid_symbols levels = true →
  ∀ prev, recovered_bits prev levels = valid_bits levels.
Proof.
  induction levels as [|x|a b levels IH] using pair_induction;
    intros Hv prev; try done.
  cbn [valid_symbols recovered_bits valid_bits] in *.
  apply andb_prop in Hv as [Hab Hv].
  destruct (low_high a b); [|destruct (high_low a b)]; try done;
    by rewrite IH.
Qed.

Lemma len_div2 (l : list Z) : Z.of_nat (Nat.div2 (length l)) = len l `div` 2.
Proof. unfold len. rewrite Nat.div2_div, Nat2Z.inj_div. done. Qed.

(** C10, as the code has it.  The two versions of [manchester_decode] return
    the same bits exactly when every complete symbol of the input is valid
    and the number of complete symbols is a multiple of 8; on every other
    input teste1.py returns recovery bits or padding that teste.py does not. *)
Theorem manchester_decode_versions_agree (encoded_data : list Z) :
  bits_of (Teste.manchester_decode encoded_data)
  = bits_of (Teste1.manchester_decode encoded_data)
  ↔ valid_symbols encoded_data = true
    ∧ (len encoded_data `div` 2) `mod` 8 = 0.
Proof.
  rewrite teste_manchester_decode_spec, teste1_manchester_decode_spec, pad_spec.
  cbn [bits_of]. rewrite <- len_div2.
  destruct (valid_bits_length encoded_data) as [Hle Hvalid].
  pose proof (recovered_bits_length encoded_data 0) as Hrec.
  set (raw := recovered_bits 0 encoded_data) in *.
  assert (Hlen : len raw = Z.of_nat (Nat.div2 (length encoded_data)))
    by (unfold len; by rewrite Hrec).
  set (zeros := (- len raw) `mod` 8).
  assert (Hz : 0 ≤ zeros < 8) by (apply Z.mod_pos_bound; lia).
  split.
  - intros [= Heq].
    assert (Hl : length (valid_bits encoded_data)
                 = (length raw + Z.to_nat zeros)%nat)
      by (by rewrite Heq, length_app, length_replicate).
    split; [apply Hvalid; lia|].
    assert (zeros = 0) by lia. rewrite <- Hlen. unfold zeros in *.
    Z.to_euclidean_division_equations; lia.
  - intros [Hv Hmod]. f_equal.
    assert (zeros = 0) as ->
      by (unfold zeros; rewrite Hlen; Z.to_euclidean_division_equations; lia).
    unfold raw. rewrite (valid_symbols_agree _ Hv). simpl. by rewrite app_nil_r.
Qed.

(** C10 as stated fails: one valid symbol decodes to [0] in teste.py and to
    [0] followed by seven padding bits in teste1.py. *)
Lemma manchester_decode_versions_differ :
  bits_of (Teste.manchester_decode [0; 1]) = Some [0]
  ∧ bits_of (Teste1.manchester_decode [0; 1]) = Some [0; 0; 0; 0; 0; 0; 0; 0]
  ∧ bits_of (Teste.manchester_decode [0; 1])
    ≠ bits_of (Teste1.manchester_decode [0; 1]).
Proof. repeat split. discriminate. Qed.

End Manchester.

(** ** Biphase-Mark and Biphase-Space *)

Section Biphase.

Lemma biphase_mark_while_unfold (d : list Z) (i : Z) (decoded : list Z) :
  biphase_mark_decode_while d i decoded =
  if i <? len d - 1 then
    transition ← and_then (mret (0 <? i))
                   (prev ← getitem d (i - 1); cur ← getitem d i;
                    mret (neq prev cur));
    biphase_mark_decode_while d (i + 2) (decoded ++ [mark_bit transition])
  else Returns decoded.
Proof.
  rewrite biphase_mark_decode_while_equation_1.
  destruct (Z_lt_dec _ _), (Z.ltb_spec i (len d - 1)); try lia; [|done].
  cbn [biphase_mark_decode_while_unfold_clause_1].
  destruct (and_then _ _) as [[]|]; reflexivity.
Qed.

Lemma biphase_space_while_unfold (d : list Z) (i : Z) (decoded : list Z) :
  biphase_space_decode_while d i decoded =
  if i <? len d - 1 then
    transition ← and_then (mret (0 <? i))
                   (prev ← getitem d (i - 1); cur ← getitem d i;
                    mret (neq prev cur));
    biphase_space_decode_while d (i + 2) (decoded ++ [space_bit transition])
  else Returns decoded.
Proof.
  rewrite biphase_space_decode_while_equation_1.
  destruct (Z_lt_dec _ _), (Z.ltb_spec i (len d - 1)); try lia; [|done].
  cbn [biphase_space_decode_while_unfold_clause_1].
  destruct (and_then _ _) as [[]|]; reflexivity.
Qed.

(** The test of both loops past the first symbol. *)
Lemma start_transition_spec (pre : list Z) (prev a : Z) (suf : list Z) :
  and_then (mret (0 <? len pre + 1))
    (p ← getitem ((pre ++ [prev]) ++ a :: suf) (len pre + 1 - 1);
     c ← getitem ((pre ++ [prev]) ++ a :: suf) (len pre + 1);
     mret (neq p c))
  = Returns (neq prev a).
Proof.
  pose proof (len_nonneg pre).
  unfold and_then. cbn [mret result_ret mbind result_bind].
  destruct (Z.ltb_spec 0 (len pre + 1)); [|lia].
  assert (Hp : getitem ((pre ++ [prev]) ++ a :: suf) (len pre + 1 - 1)
               = Returns prev).
  { rewrite <- (assoc_cons pre prev). apply getitem_middle. lia. }
  assert (Hc : getitem ((pre ++ [prev]) ++ a :: suf) (len pre + 1) = Returns a).
  { apply getitem_middle. rewrite len_app, len_cons, len_nil. lia. }
  rewrite Hp. cbn [mbind result_bind]. rewrite Hc. done.
Qed.

Lemma step_prefix (pre : list Z) (prev a b : Z) (suf : list Z) :
  (pre ++ [prev]) ++ a :: b :: suf = ((pre ++ [prev; a]) ++ [b]) ++ suf
  ∧ len pre + 1 + 2 = len (pre ++ [prev; a]) + 1.
Proof.
  split; [by rewrite <- !app_assoc|].
  rewrite len_app, !len_cons, len_nil. lia.
Qed.

Lemma biphase_mark_while_spec (suf : list Z) :
  ∀ (pre : list Z) (prev : Z) (decoded : list Z),
    biphase_mark_decode_while ((pre ++ [prev]) ++ suf) (len pre + 1) decoded
    = Returns (decoded ++ (mark_bit <$> start_transitions prev suf)).
Proof.
  induction suf as [|x|a b suf IH] using pair_induction;
    intros pre prev decoded; rewrite biphase_mark_while_unfold;
    rewrite !len_app, ?len_cons, ?len_nil.
  - destruct (Z.ltb_spec (len pre + 1) (len pre + (0 + 1) + 0 - 1)); [lia|].
    simpl. by rewrite app_nil_r.
  - destruct (Z.ltb_spec (len pre + 1) (len pre + (0 + 1) + (0 + 1) - 1)); [lia|].
    simpl. by rewrite app_nil_r.
  - pose proof (len_nonneg suf).
    destruct (Z.ltb_spec (len pre + 1)
                (len pre + (0 + 1) + (len suf + 1 + 1) - 1)); [|lia].
    rewrite start_transition_spec. cbn [mbind result_bind].
    destruct (step_prefix pre prev a b suf) as [-> ->].
    rewrite IH, <- app_assoc. done.
Qed.

Lemma biphase_space_while_spec (suf : list Z) :
  ∀ (pre : list Z) (prev : Z) (decoded : list Z),
    biphase_space_decode_while ((pre ++ [prev]) ++ suf) (len pre + 1) decoded
    = Returns (decoded ++ (space_bit <$> start_transitions prev suf)).
Proof.
  induction suf as [|x|a b suf IH] using pair_induction;
    intros pre prev decoded; rewrite biphase_space_while_unfold;
    rewrite !len_app, ?len_cons, ?len_nil.
  - destruct (Z.ltb_spec (len pre + 1) (len pre + (0 + 1) + 0 - 1)); [lia|].
    simpl. by rewrite app_nil_r.
  - destruct (Z.ltb_spec (len pre + 1) (len pre + (0 + 1) + (0 + 1) - 1)); [lia|].
    simpl. by rewrite app_nil_r.
  - pose proof (len_nonneg suf).
    destruct (Z.ltb_spec (len pre + 1)
                (len pre + (0 + 1) + (len suf + 1 + 1) - 1)); [|lia].
    rewrite start_transition_spec. cbn [mbind result_bind].
    destruct (step_prefix pre prev a b suf) as [-> ->].
    rewrite IH, <- app_assoc. done.
Qed.

(** The first symbol is never compared with anything. *)
Lemma biphase_mark_decode_cons (a b : Z) (levels : list Z) :
  biphase_mark_decode (a :: b :: levels)
  = Returns (0 :: (mark_bit <$> start_transitions b levels)).
Proof.
  unfold biphase_mark_decode. rewrite biphase_mark_while_unfold.
  rewrite !len_cons. pose proof (len_nonneg levels).
  destruct (Z.ltb_spec 0 (len levels + 1 + 1 - 1)); [|lia].
  cbn [and_then mret result_ret mbind result_bind Z.ltb Z.compare mark_bit app].
  exact (biphase_mark_while_spec levels [a] b [0]).
Qed.

Lemma biphase_space_decode_cons (a b : Z) (levels : list Z) :
  biphase_space_decode (a :: b :: levels)
  = Returns (1 :: (space_bit <$> start_transitions b levels)).
Proof.
  unfold biphase_space_decode. rewrite biphase_space_while_unfold.
  rewrite !len_cons. pose proof (len_nonneg levels).
  destruct (Z.ltb_spec 0 (len levels + 1 + 1 - 1)); [|lia].
  cbn [and_then mret result_ret mbind result_bind Z.ltb Z.compare space_bit app].
  exact (biphase_space_while_spec levels [a] b [1]).
Qed.

(** C9. On a level sequence with at least two levels the first bit returned
    by [biphase_mark_decode] is 0 and the first bit returned by
    [biphase_space_decode] is 1, whatever the levels are. *)
Theorem biphase_first_bit_is_fixed (encoded_data : list Z)
  (Hlen : 2 ≤ len encoded_data) :
  (∃ decoded, biphase_mark_decode encoded_data = Returns decoded
              ∧ decoded !! 0%nat = Some 0)
  ∧ (∃ decoded, biphase_space_decode encoded_data = Returns decoded
                ∧ decoded !! 0%nat = Some 1).
Proof.
  destruct encoded_data as [|a [|b levels]];
    try (rewrite ?len_cons, len_nil in Hlen; lia).
  rewrite biphase_mark_decode_cons, biphase_space_decode_cons.
  split; eexists; split; reflexivity.
Qed.

Lemma biphase_first_bit_is_fixed_witness :
  2 ≤ len [1; 0; 1; 0]
  ∧ (∃ decoded, biphase_mark_decode [1; 0; 1; 0] = Returns decoded
                ∧ decoded !! 0%nat = Some 0)
  ∧ (∃ decoded, biphase_space_decode [1; 0; 1; 0] = Returns decoded
                ∧ decoded !! 0%nat = Some 1).
Proof.
  split; [by vm_compute|].
  apply (biphase_first_bit_is_fixed [1; 0; 1; 0]). by vm_compute.
Defined.

End Biphase.

(** ** Differential Manchester *)

Section DifferentialManchester.

Lemma differential_manchester_while_unfold (d : list Z) (i : Z)
  (decoded : list Z) :
  differential_manchester_decode_while d i decoded =
  if i <? len d - 3 then
    current_first ← getitem d i;
    next_first ← getitem d (i + 2);
    differential_manchester_decode_while d (i + 2)
      (decoded ++ [if current_first =? next_first then 1 else 0])
  else Returns decoded.
Proof.
  rewrite differential_manchester_decode_while_equation_1.
  destruct (Z_lt_dec _ _), (Z.ltb_spec i (len d - 3)); try lia; [|done].
  cbn [differential_manchester_decode_while_unfold_clause_1].
  destruct (getitem d i) as [cf|]; [|done]. cbn [mbind result_bind].
  destruct (getitem d (i + 2)) as [nf|]; [|done]. cbn [mbind result_bind].
  by destruct (cf =? nf).
Qed.

Lemma differential_manchester_while_spec (suf : list Z) :
  ∀ (pre decoded : list Z),
    differential_manchester_decode_while (pre ++ suf) (len pre) decoded
    = Returns (decoded ++ next_symbol_bits suf).
Proof.
  induction suf as [|x|a b suf IH] using pair_induction;
    intros pre decoded; rewrite differential_manchester_while_unfold;
    rewrite len_app, ?len_cons, ?len_nil.
  - destruct (Z.ltb_spec (len pre) (len pre + 0 - 3)); [lia|].
    simpl. by rewrite app_nil_r.
  - destruct (Z.ltb_spec (len pre) (len pre + (0 + 1) - 3)); [lia|].
    simpl. by rewrite app_nil_r.
  - destruct suf as [|c [|e suf]]; rewrite ?len_cons, ?len_nil.
    + destruct (Z.ltb_spec (len pre) (len pre + (0 + 1 + 1) - 3)); [lia|].
      simpl. by rewrite app_nil_r.
    + destruct (Z.ltb_spec (len pre) (len pre + (0 + 1 + 1 + 1) - 3)); [lia|].
      simpl. by rewrite app_nil_r.
    + pose proof (len_nonneg suf).
      destruct (Z.ltb_spec (len pre)
                  (len pre + (len suf + 1 + 1 + 1 + 1) - 3)); [|lia].
      rewrite (getitem_middle pre _ a (len pre)) by done.
      cbn [mbind result_bind].
      assert (Hpre : pre ++ a :: b :: c :: e :: suf
                     = (pre ++ [a; b]) ++ c :: e :: suf)
        by (by rewrite <- app_assoc).
      assert (Hlen : len pre + 2 = len (pre ++ [a; b]))
        by (rewrite len_app, !len_cons, len_nil; lia).
      rewrite Hpre, Hlen.
      rewrite (getitem_middle (pre ++ [a; b]) _ c (len (pre ++ [a; b]))) by done.
      cbn [mbind result_bind]. rewrite IH, <- app_assoc. done.
Qed.

Lemma differential_manchester_decode_spec (encoded_data : list Z) :
  differential_manchester_decode encoded_data
  = Returns (next_symbol_bits encoded_data).
Proof. exact (differential_manchester_while_spec encoded_data [] []). Qed.

End DifferentialManchester.

(** ** AMI *)

Section AMI.

Lemma ami_encode_for_app (binary_data : list Z) :
  ∀ (last_polarity : Z) (encoded : list Z),
    ami_encode_for binary_data last_polarity encoded
    = encoded ++ ami_encode_for binary_data last_polarity [].
Proof.
  induction binary_data as [|bit binary_data IH]; intros p encoded; simpl.
  - by rewrite app_nil_r.
  - destruct (bit =? 0); rewrite IH, (IH _ [_]), <- app_assoc; done.
Qed.

Lemma ami_encode_for_cons (bit : Z) (binary_data : list Z) (p : Z) :
  ami_encode_for (bit :: binary_data) p []
  = if bit =? 0 then 0 :: ami_encode_for binary_data p []
    else - p :: ami_encode_for binary_data (- p) [].
Proof.
  simpl. destruct (bit =? 0); by rewrite ami_encode_for_app.
Qed.

Lemma ami_encode_for_length (binary_data : list Z) :
  ∀ p, length (ami_encode_for binary_data p []) = length binary_data.
Proof.
  induction binary_data as [|bit binary_data IH]; intros p; [done|].
  rewrite ami_encode_for_cons. destruct (bit =? 0); simpl; by rewrite IH.
Qed.

(** A 0-bit is sent as level 0. *)
Lemma ami_zero (binary_data : list Z) :
  ∀ (p : Z) (i : nat),
    binary_data !! i = Some 0 → ami_encode_for binary_data p [] !! i = Some 0.
Proof.
  induction binary_data as [|bit binary_data IH]; intros p i Hi; [done|].
  rewrite ami_encode_for_cons.
  destruct i as [|i]; simpl in Hi.
  - by simplify_eq.
  - destruct (bit =? 0); simpl; by apply IH.
Qed.

(** The first 1-bit after a run of 0-bits is sent as the opposite of the
    running polarity. *)
Lemma ami_next_one (binary_data : list Z) :
  ∀ (p : Z) (j : nat),
    binary_data !! j = Some 1 →
    (∀ k, (k < j)%nat → binary_data !! k = Some 0) →
    ami_encode_for binary_data p [] !! j = Some (- p).
Proof.
  induction binary_data as [|bit binary_data IH]; intros p j Hj Hzeros; [done|].
  rewrite ami_encode_for_cons.
  destruct j as [|j]; simpl in Hj.
  - by simplify_eq.
  - specialize (Hzeros 0%nat ltac:(lia)) as Hbit. simpl in Hbit. simplify_eq.
    simpl. apply IH; [done|].
    intros k Hk. apply (Hzeros (S k)). lia.
Qed.

(** A 1-bit at position [i] is sent as [x], one of +1 and -1 when the
    running polarity is, and the next 1-bit is sent as [- x]. *)
Lemma ami_alternates (binary_data : list Z) :
  ∀ (p : Z) (i : nat),
    (p = 1 ∨ p = -1) →
    binary_data !! i = Some 1 →
    ∃ x, (x = 1 ∨ x = -1)
         ∧ ami_encode_for binary_data p [] !! i = Some x
         ∧ ∀ j, (i < j)%nat → binary_data !! j = Some 1 →
                (∀ k, (i < k < j)%nat → binary_data !! k = Some 0) →
                ami_encode_for binary_data p [] !! j = Some (- x).
Proof.
  induction binary_data as [|bit binary_data IH]; intros p i Hp Hi; [done|].
  rewrite ami_encode_for_cons.
  destruct i as [|i]; simpl in Hi.
  - simplify_eq. exists (- p). split; [lia|]. split; [done|].
    intros j Hj Hone Hzeros. destruct j as [|j]; [lia|]. simpl in *.
    apply ami_next_one; [done|].
    intros k Hk. apply (Hzeros (S k)). lia.
  - assert (Hp' : (if bit =? 0 then p else - p) = 1
                  ∨ (if bit =? 0 then p else - p) = -1)
      by (destruct (bit =? 0); lia).
    destruct (IH _ i Hp' Hi) as (x & Hx & Hxi & Hnext).
    exists x. split; [done|].
    split; [by destruct (bit =? 0)|].
    intros j Hj Hone Hzeros. destruct j as [|j]; [lia|].
    assert (ami_encode_for binary_data (if bit =? 0 then p else - p) [] !! j
            = Some (- x)) as Hres.
    { apply Hnext; [lia|done|]. intros k Hk. apply (Hzeros (S k)). lia. }
    by destruct (bit =? 0).
Qed.

(** C8. [ami_encode] sends one level per bit; a 0-bit as level 0, a 1-bit
    as +1 or -1, and two 1-bits with nothing but 0-bits between them as
    levels of opposite sign. *)
Theorem ami_encode_shape (binary_data : list Z) :
  length (ami_encode binary_data) = length binary_data
  ∧ (∀ i, binary_data !! i = Some 0 → ami_encode binary_data !! i = Some 0)
  ∧ (∀ i, binary_data !! i = Some 1 →
          ami_encode binary_data !! i = Some 1
          ∨ ami_encode binary_data !! i = Some (-1))
  ∧ (∀ i j, (i < j)%nat →
            binary_data !! i = Some 1 → binary_data !! j = Some 1 →
            (∀ k, (i < k < j)%nat → binary_data !! k = Some 0) →
            ∃ x, (x = 1 ∨ x = -1)
                 ∧ ami_encode binary_data !! i = Some x
                 ∧ ami_encode binary_data !! j = Some (- x)).
Proof.
  unfold ami_encode. split; [apply ami_encode_for_length|].
  split; [intros i; apply ami_zero|]. split.
  - intros i Hi.
    destruct (ami_alternates binary_data 1 i (or_introl eq_refl) Hi)
      as (x & [-> | ->] & Hx & _); auto.
  - intros i j Hij Hi Hj Hzeros.
    destruct (ami_alternates binary_data 1 i (or_introl eq_refl) Hi)
      as (x & Hx & Hxi & Hnext).
    exists x. auto.
Qed.

End AMI.

(** ** [encode]: what is checked and what is not *)

Section Encode.

Lemma encoding_methods_lookup (method : string) :
  encoding_methods !! method = None ↔ method ∉ get_available_encodings.
Proof.
  unfold encoding_methods, get_available_encodings.
  symmetry. apply not_elem_of_list_to_map.
Qed.

(** C6, as the code has it.  [encode] raises a [ValueError] exactly when the
    scheme is not one of the seven names, and returns a level sequence for
    every other call: the elements of the input are never validated. *)
Theorem encode_checks_only_the_scheme (binary_data : list Z) (method : string) :
  (method ∈ get_available_encodings
   ↔ ∃ levels, encode binary_data method = Returns levels)
  ∧ (method ∉ get_available_encodings
     ↔ ∃ msg, encode binary_data method = Raises (ValueError msg)).
Proof.
  pose proof (encoding_methods_lookup method) as Hlookup.
  unfold encode. destruct (encoding_methods !! method) as [encoder|]; split; split.
  - eauto.
  - intros _. destruct (decide (method ∈ get_available_encodings)); [done|].
    by apply Hlookup in n.
  - intros Hn. by apply Hlookup in Hn.
  - by intros [msg ?].
  - intros Hin. exfalso. by apply Hlookup.
  - by intros [levels ?].
  - eauto.
  - intros _. by apply Hlookup.
Qed.

(** C6 as stated fails: 2 is neither 0 nor 1, and [encode] returns the
    levels of a 1-bit for it. *)
Lemma encode_accepts_a_non_bit :
  encode [2] "Manchester" = Returns [1; 0]
  ∧ ∀ e, encode [2] "Manchester" ≠ Raises e.
Proof. split; [reflexivity|]. intros e. discriminate. Qed.

End Encode.

(** ** The channel simulator *)

Section Channel.

Lemma simulate_channel_for_length (random : nat → float) (noise_level : float)
  (encoded_data : list Z) :
  ∀ (calls : nat) (noisy_data : list Z),
    length (simulate_channel_for random noise_level encoded_data calls noisy_data)
    = (length noisy_data + length encoded_data)%nat.
Proof.
  induction encoded_data as [|bit encoded_data IH]; intros calls noisy_data;
    simpl; [lia|].
  destruct (PrimFloat.ltb _ _); [destruct (bit =? 0); [|destruct (bit =? 1)]|];
    rewrite IH, length_app; simpl; lia.
Qed.

Lemma simulate_channel_for_all_hit (random : nat → float) (noise_level : float)
  (Hhit : ∀ k, PrimFloat.ltb (random k) noise_level = true)
  (encoded_data : list Z) :
  ∀ (calls : nat) (noisy_data : list Z),
    simulate_channel_for random noise_level encoded_data calls noisy_data
    = noisy_data ++ (flipped <$> encoded_data).
Proof.
  induction encoded_data as [|bit encoded_data IH]; intros calls noisy_data;
    simpl; [by rewrite app_nil_r|].
  rewrite Hhit. unfold flipped at 1.
  destruct (bit =? 0); [|destruct (bit =? 1)]; rewrite IH, <- app_assoc; done.
Qed.

(** C7, as the code has it.  [simulate_channel] has no check on
    [noise_level] and cannot fail: every call returns as many levels as it
    was given.  A [noise_level] at or below 0 returns the levels unchanged,
    and a [noise_level] above every random draw flips every level. *)
Theorem simulate_channel_never_rejects (random : nat → float)
  (encoded_data : list Z) (noise_level : float) :
  length (simulate_channel random encoded_data noise_level)
  = length encoded_data
  ∧ (PrimFloat.leb noise_level 0 = true →
     simulate_channel random encoded_data noise_level = encoded_data)
  ∧ (PrimFloat.leb noise_level 0 = false →
     (∀ k, PrimFloat.ltb (random k) noise_level = true) →
     simulate_channel random encoded_data noise_level
     = flipped <$> encoded_data).
Proof.
  unfold simulate_channel. split; [|split].
  - destruct (PrimFloat.leb _ _); [done|].
    by rewrite simulate_channel_for_length.
  - by intros ->.
  - intros -> Hhit. by rewrite simulate_channel_for_all_hit.
Qed.

Lemma simulate_channel_never_rejects_witness :
  simulate_channel (λ _, 0.5%float) [0; 1; -1] (-1)%float = [0; 1; -1]
  ∧ simulate_channel (λ _, 0.5%float) [0; 1; -1] 2%float
    = flipped <$> [0; 1; -1].
Proof.
  split.
  - apply (simulate_channel_never_rejects (λ _, 0.5%float) [0; 1; -1]
             (-1)%float). reflexivity.
  - apply (simulate_channel_never_rejects (λ _, 0.5%float) [0; 1; -1]
             2%float); [reflexivity|]. intros k. reflexivity.
Defined.

(** C7 as stated fails: the probabilities 2 and -1 lie outside [0,1], and
    both calls return levels instead of raising. *)
Lemma simulate_channel_accepts_out_of_range :
  simulate_channel (λ _, 0.5%float) [0; 1; -1] 2%float = [1; 0; 0]
  ∧ simulate_channel (λ _, 0.5%float) [0; 1; -1] (-1)%float = [0; 1; -1].
Proof. split; reflexivity. Qed.

End Channel.

(** ** Encoding followed by decoding *)

Section RoundTrip.

Lemma remove_padding_silent (decoded : list Z) :
  remove_padding decoded [] = decoded.
Proof.
  unfold remove_padding. simpl. rewrite Nat.sub_0_r. apply firstn_all.
Qed.

(** *** The encoders, one symbol at a time *)

Lemma nrz_encode_for_app (binary_data : list Z) :
  ∀ encoded, nrz_encode_for binary_data encoded = encoded ++ binary_data.
Proof.
  induction binary_data as [|bit binary_data IH]; intros encoded; simpl.
  - by rewrite app_nil_r.
  - by rewrite IH, <- app_assoc.
Qed.

Lemma manchester_encode_for_app (binary_data : list Z) :
  ∀ encoded, manchester_encode_for binary_data encoded
             = encoded ++ manchester_encode_for binary_data [].
Proof.
  induction binary_data as [|bit binary_data IH]; intros encoded; simpl.
  - by rewrite app_nil_r.
  - destruct (bit =? 0); rewrite IH, (IH [_; _]), <- app_assoc; done.
Qed.

Lemma manchester_encode_cons (bit : Z) (binary_data : list Z) :
  manchester_encode (bit :: binary_data)
  = (if bit =? 0 then 0 else 1) :: (if bit =? 0 then 1 else 0)
    :: manchester_encode binary_data.
Proof.
  unfold manchester_encode. simpl.
  destruct (bit =? 0); by rewrite manchester_encode_for_app.
Qed.

Lemma nrzi_encode_for_app (binary_data : list Z) :
  ∀ level encoded, nrzi_encode_for binary_data level encoded
                   = encoded ++ nrzi_encode_for binary_data level [].
Proof.
  induction binary_data as [|bit binary_data IH]; intros level encoded; simpl.
  - by rewrite app_nil_r.
  - destruct (bit =? 0); rewrite IH, (IH _ [_]), <- app_assoc; done.
Qed.

Lemma nrzi_encode_for_cons (bit : Z) (binary_data : list Z) (level : Z) :
  nrzi_encode_for (bit :: binary_data) level []
  = let level := if bit =? 0 then level else 1 - level in
    level :: nrzi_encode_for binary_data level [].
Proof. simpl. destruct (bit =? 0); by rewrite nrzi_encode_for_app. Qed.

Lemma biphase_mark_encode_for_app (binary_data : list Z) :
  ∀ level encoded, biphase_mark_encode_for binary_data level encoded
                   = encoded ++ biphase_mark_encode_for binary_data level [].
Proof.
  induction binary_data as [|bit binary_data IH]; intros level encoded; simpl.
  - by rewrite app_nil_r.
  - rewrite IH, (IH _ [_; _]), <- !app_assoc. done.
Qed.

Lemma biphase_mark_encode_for_cons (bit : Z) (binary_data : list Z) (level : Z) :
  biphase_mark_encode_for (bit :: binary_data) level []
  = let first := if bit =? 1 then 1 - level else level in
    first :: 1 - first :: biphase_mark_encode_for binary_data (1 - first) [].
Proof. simpl. by rewrite biphase_mark_encode_for_app. Qed.

Lemma biphase_space_encode_for_app (binary_data : list Z) :
  ∀ level encoded, biphase_space_encode_for binary_data level encoded
                   = encoded ++ biphase_space_encode_for binary_data level [].
Proof.
  induction binary_data as [|bit binary_data IH]; intros level encoded; simpl.
  - by rewrite app_nil_r.
  - rewrite IH, (IH _ [_; _]), <- !app_assoc. done.
Qed.

Lemma biphase_space_encode_for_cons (bit : Z) (binary_data : list Z) (level : Z) :
  biphase_space_encode_for (bit :: binary_data) level []
  = let first := if bit =? 0 then 1 - level else level in
    first :: 1 - first :: biphase_space_encode_for binary_data (1 - first) [].
Proof. simpl. by rewrite biphase_space_encode_for_app. Qed.

Lemma differential_manchester_encode_for_app (binary_data : list Z) :
  ∀ level encoded,
    differential_manchester_encode_for binary_data level encoded
    = encoded ++ differential_manchester_encode_for binary_data level [].
Proof.
  induction binary_data as [|bit binary_data IH]; intros level encoded; simpl.
  - by rewrite app_nil_r.
  - destruct (bit =? 0); rewrite IH, (IH _ [_; _]), <- !app_assoc; done.
Qed.

Lemma differential_manchester_encode_for_cons (bit : Z) (binary_data : list Z)
  (level : Z) :
  differential_manchester_encode_for (bit :: binary_data) level []
  = let first := if bit =? 0 then level else 1 - level in
    first :: 1 - first
    :: differential_manchester_encode_for binary_data (1 - first) [].
Proof.
  simpl. destruct (bit =? 0); by rewrite differential_manchester_encode_for_app.
Qed.

(** *** What each decoder gets back from its encoder *)

Lemma flip_differs (level : Z) : neq (1 - level) level = true.
Proof. unfold neq. destruct (Z.eqb_spec (1 - level) level); [lia|done]. Qed.

Lemma flip_differs' (level : Z) : neq level (1 - level) = true.
Proof. unfold neq. destruct (Z.eqb_spec level (1 - level)); [lia|done]. Qed.

Lemma same_level (level : Z) : neq level level = false.
Proof. unfold neq. by rewrite Z.eqb_refl. Qed.

Lemma transitions_nrzi_encode (binary_data : list Z) :
  Forall is_bit binary_data →
  ∀ level, transitions level (nrzi_encode_for binary_data level [])
           = binary_data.
Proof.
  induction 1 as [|bit binary_data [-> | ->] _ IH]; intros level; [done| |];
    rewrite nrzi_encode_for_cons; cbn [Z.eqb transitions];
    rewrite ?same_level, ?flip_differs, IH; done.
Qed.

Lemma start_transitions_mark (binary_data : list Z) :
  Forall is_bit binary_data →
  ∀ level,
    mark_bit <$> start_transitions level
                   (biphase_mark_encode_for binary_data level [])
    = binary_data.
Proof.
  induction 1 as [|bit binary_data [-> | ->] _ IH]; intros level; [done| |];
    rewrite biphase_mark_encode_for_cons;
    cbn [Z.eqb start_transitions fmap list_fmap];
    rewrite ?same_level, ?flip_differs', IH; done.
Qed.

Lemma start_transitions_space (binary_data : list Z) :
  Forall is_bit binary_data →
  ∀ level,
    space_bit <$> start_transitions level
                    (biphase_space_encode_for binary_data level [])
    = binary_data.
Proof.
  induction 1 as [|bit binary_data [-> | ->] _ IH]; intros level; [done| |];
    rewrite biphase_space_encode_for_cons;
    cbn [Z.eqb start_transitions fmap list_fmap];
    rewrite ?same_level, ?flip_differs', IH; done.
Qed.

Lemma next_symbol_bits_cons (a b c e : Z) (levels : list Z) :
  next_symbol_bits (a :: b :: c :: e :: levels)
  = (if a =? c then 1 else 0) :: next_symbol_bits (c :: e :: levels).
Proof. reflexivity. Qed.

Lemma next_symbol_bits_encode (binary_data : list Z) :
  Forall is_bit binary_data →
  ∀ first level,
    next_symbol_bits
      (differential_manchester_encode_for (first :: binary_data) level [])
    = binary_data.
Proof.
  induction 1 as [|bit binary_data Hbit _ IH]; intros first level;
    [by rewrite differential_manchester_encode_for_cons|].
  rewrite differential_manchester_encode_for_cons. cbn zeta.
  set (a := if first =? 0 then level else 1 - level).
  specialize (IH bit (1 - a)).
  rewrite differential_manchester_encode_for_cons in IH |- *. cbn zeta in *.
  rewrite next_symbol_bits_cons, IH. f_equal.
  destruct Hbit as [-> | ->]; cbn [Z.eqb].
  - destruct (Z.eqb_spec a (1 - a)); [lia|done].
  - destruct (Z.eqb_spec a (1 - (1 - a))); [done|lia].
Qed.

Lemma ami_decode_for_app (encoded_data : list Z) :
  ∀ decoded, ami_decode_for encoded_data decoded
             = decoded ++ ami_decode_for encoded_data [].
Proof.
  induction encoded_data as [|level encoded_data IH]; intros decoded; simpl.
  - by rewrite app_nil_r.
  - destruct (level =? 0); rewrite IH, (IH [_]), <- app_assoc; done.
Qed.

Lemma ami_decode_encode (binary_data : list Z) :
  Forall is_bit binary_data →
  ∀ p, p ≠ 0 →
       ami_decode_for (ami_encode_for binary_data p []) [] = binary_data.
Proof.
  induction 1 as [|bit binary_data [-> | ->] _ IH]; intros p Hp; [done| |];
    rewrite ami_encode_for_cons; cbn [Z.eqb ami_decode_for].
  - rewrite ami_decode_for_app, IH; done.
  - destruct (Z.eqb_spec (- p) 0); [lia|].
    rewrite ami_decode_for_app, IH; [done|lia].
Qed.

Lemma manchester_encode_valid (binary_data : list Z) :
  valid_symbols (manchester_encode binary_data) = true.
Proof.
  induction binary_data as [|bit binary_data IH]; [done|].
  rewrite manchester_encode_cons. cbn [valid_symbols]. rewrite IH.
  by destruct (bit =? 0).
Qed.

Lemma valid_bits_manchester_encode (binary_data : list Z) :
  Forall is_bit binary_data →
  valid_bits (manchester_encode binary_data) = binary_data.
Proof.
  induction 1 as [|bit binary_data [-> | ->] _ IH]; [done| |];
    rewrite manchester_encode_cons; simpl; by rewrite IH.
Qed.

Lemma warnings_valid (levels : list Z) :
  valid_symbols levels = true → ∀ i, warnings i levels = [].
Proof.
  induction levels as [|x|a b levels IH] using pair_induction;
    intros Hv i; try done.
  cbn [valid_symbols warnings] in *. apply andb_prop in Hv as [-> Hv]. auto.
Qed.

(** *** The round trip, scheme by scheme *)

(** NRZ, AMI and Manchester give the bits back. *)
Lemma roundtrip_nrz (binary_data : list Z) :
  roundtrip binary_data "NRZ" = Returns binary_data.
Proof.
  change (roundtrip binary_data "NRZ")
    with (Returns (remove_padding (nrz_encode binary_data) [])
          : result (list Z)).
  rewrite remove_padding_silent. unfold nrz_encode.
  by rewrite nrz_encode_for_app.
Qed.

Lemma roundtrip_ami (binary_data : list Z) :
  Forall is_bit binary_data → roundtrip binary_data "AMI" = Returns binary_data.
Proof.
  intros Hbits.
  change (roundtrip binary_data "AMI")
    with (Returns (remove_padding
                     (ami_decode_for (ami_encode binary_data) []) [])
          : result (list Z)).
  rewrite remove_padding_silent. unfold ami_encode.
  by rewrite ami_decode_encode.
Qed.

Lemma roundtrip_manchester (binary_data : list Z) :
  Forall is_bit binary_data →
  roundtrip binary_data "Manchester" = Returns binary_data.
Proof.
  intros Hbits.
  change (roundtrip binary_data "Manchester")
    with ('(decoded, stdout) ←
            Teste1.manchester_decode (manchester_encode binary_data);
          Returns (remove_padding decoded stdout)).
  rewrite teste1_manchester_decode_spec, pad_spec.
  rewrite (valid_symbols_agree _ (manchester_encode_valid binary_data)).
  rewrite (warnings_valid _ (manchester_encode_valid binary_data)).
  rewrite valid_bits_manchester_encode by done.
  cbn [mbind result_bind app]. f_equal. unfold remove_padding.
  set (zeros := (- len binary_data) `mod` 8).
  assert (Hz : 0 ≤ zeros < 8) by (apply Z.mod_pos_bound; lia).
  assert (Hrep : padding_reported
                   (if decide (zeros = 0) then []
                    else [PaddingAdicionado zeros]) = zeros)
    by (destruct (decide (zeros = 0)); simpl; lia).
  rewrite Hrep, length_app, length_replicate.
  replace (length binary_data + Z.to_nat zeros - Z.to_nat zeros)%nat
    with (length binary_data) by lia.
  by rewrite take_app_length.
Qed.

(** NRZI and Differential Manchester lose the first bit. *)
Lemma roundtrip_nrzi (first : Z) (binary_data : list Z) :
  Forall is_bit binary_data →
  roundtrip (first :: binary_data) "NRZI" = Returns binary_data.
Proof.
  intros Hbits.
  change (roundtrip (first :: binary_data) "NRZI")
    with ('(decoded, stdout) ← silent nrzi_decode
                                  (nrzi_encode_for (first :: binary_data) 0 []);
          Returns (remove_padding decoded stdout)).
  unfold silent.
  rewrite nrzi_encode_for_cons. cbn zeta.
  rewrite nrzi_decode_cons, transitions_nrzi_encode by done.
  cbn [mbind result_bind]. by rewrite remove_padding_silent.
Qed.

Lemma roundtrip_differential_manchester (first : Z) (binary_data : list Z) :
  Forall is_bit binary_data →
  roundtrip (first :: binary_data) "Differential_Manchester"
  = Returns binary_data.
Proof.
  intros Hbits.
  change (roundtrip (first :: binary_data) "Differential_Manchester")
    with ('(decoded, stdout) ← silent differential_manchester_decode
                                  (differential_manchester_encode_for
                         (first :: binary_data) 0 []);
          Returns (remove_padding decoded stdout)).
  unfold silent.
  rewrite differential_manchester_decode_spec, next_symbol_bits_encode by done.
  cbn [mbind result_bind]. by rewrite remove_padding_silent.
Qed.

(** Biphase-Mark always gives 0 for the first bit, Biphase-Space always 1. *)
Lemma roundtrip_biphase_mark (first : Z) (binary_data : list Z) :
  Forall is_bit binary_data →
  roundtrip (first :: binary_data) "Biphase_Mark" = Returns (0 :: binary_data).
Proof.
  intros Hbits.
  change (roundtrip (first :: binary_data) "Biphase_Mark")
    with ('(decoded, stdout) ← silent biphase_mark_decode
                                  (biphase_mark_encode_for (first :: binary_data) 0 []);
          Returns (remove_padding decoded stdout)).
  unfold silent.
  rewrite biphase_mark_encode_for_cons. cbn zeta.
  rewrite biphase_mark_decode_cons, start_transitions_mark by done.
  cbn [mbind result_bind]. by rewrite remove_padding_silent.
Qed.

Lemma roundtrip_biphase_space (first : Z) (binary_data : list Z) :
  Forall is_bit binary_data →
  roundtrip (first :: binary_data) "Biphase_Space" = Returns (1 :: binary_data).
Proof.
  intros Hbits.
  change (roundtrip (first :: binary_data) "Biphase_Space")
    with ('(decoded, stdout) ← silent biphase_space_decode
                                  (biphase_space_encode_for (first :: binary_data) 0 []);
          Returns (remove_padding decoded stdout)).
  unfold silent.
  rewrite biphase_space_encode_for_cons. cbn zeta.
  rewrite biphase_space_decode_cons, start_transitions_space by done.
  cbn [mbind result_bind]. by rewrite remove_padding_silent.
Qed.

(** C1.  The round-trip law does not hold on the code.  With the padding
    removed, [decode(encode(B, S), S)] is not [B] for NRZI on [1,1,0,1], for
    Differential Manchester on [1,0], for Biphase-Mark on [1] and for
    Biphase-Space on [0]; it is [B] for the same inputs with NRZ, AMI and
    Manchester. *)
Theorem roundtrip_law_breaks :
  roundtrip [1; 1; 0; 1] "NRZI" = Returns [1; 0; 1]
  ∧ roundtrip [1; 0] "Differential_Manchester" = Returns [0]
  ∧ roundtrip [1] "Biphase_Mark" = Returns [0]
  ∧ roundtrip [0] "Biphase_Space" = Returns [1]
  ∧ roundtrip [1; 1; 0; 1] "NRZ" = Returns [1; 1; 0; 1]
  ∧ roundtrip [1; 1; 0; 1] "AMI" = Returns [1; 1; 0; 1]
  ∧ roundtrip [1; 1; 0; 1] "Manchester" = Returns [1; 1; 0; 1].
Proof. repeat split. Qed.

End RoundTrip.

(** ** Text framing: [string_to_binary], [binary_to_string], [binary_to_hex] *)

Section Text.

Lemma range3_nil (start stop step : Z) :
  0 < step → stop ≤ start → range3 start stop step = [].
Proof.
  intros Hs H. unfold range3. destruct (Z.ltb_spec 0 step); [|lia].
  replace (Z.to_nat ((stop - start + step - 1) `div` step)) with 0%nat; [done|].
  assert ((stop - start + step - 1) `div` step < 1); [|lia].
  apply Z.div_lt_upper_bound; lia.
Qed.

Lemma range3_cons (start stop step : Z) :
  0 < step → start < stop →
  range3 start stop step = start :: range3 (start + step) stop step.
Proof.
  intros Hs H. unfold range3. destruct (Z.ltb_spec 0 step); [|lia].
  replace (stop - start + step - 1) with ((stop - (start + step) + step - 1) + 1 * step)
    by lia.
  rewrite Z.div_add by lia.
  assert (0 ≤ (stop - (start + step) + step - 1) `div` step)
    by (apply Z.div_pos; lia).
  replace (Z.to_nat ((stop - (start + step) + step - 1) `div` step + 1))
    with (S (Z.to_nat ((stop - (start + step) + step - 1) `div` step))) by lia.
  rewrite <- cons_seq, <- fmap_S_seq. cbn [fmap list_fmap]. f_equal; [lia|].
  rewrite <- list_fmap_compose. apply list_fmap_ext. intros _ k _. simpl. lia.
Qed.

(** The [w] elements that follow a prefix. *)
Lemma slice_middle (pre chunk suf : list Z) :
  slice (pre ++ chunk ++ suf) (len pre) (len pre + len chunk) = chunk.
Proof.
  unfold slice. pose proof (len_nonneg pre). pose proof (len_nonneg chunk).
  pose proof (len_nonneg suf). rewrite !len_app.
  destruct (Z.ltb_spec (len pre) 0), (Z.ltb_spec (len pre + len chunk) 0);
    try lia.
  rewrite !Z.min_l by lia.
  replace (Z.to_nat (len pre + len chunk)) with (length pre + length chunk)%nat
    by (unfold len; lia).
  replace (Z.to_nat (len pre)) with (length pre) by (unfold len; lia).
  rewrite take_app_add, take_app_length, drop_app_length. done.
Qed.

Lemma sum_shifted_spec (chunk : list Z) :
  ∀ (top j total : Z),
    j + len chunk ≤ top + 1 →
    sum_shifted top chunk j total
    = Returns (total + weighted (top - j) chunk).
Proof.
  induction chunk as [|bit chunk IH]; intros top j total Hj; simpl.
  - f_equal. lia.
  - rewrite len_cons in Hj. pose proof (len_nonneg chunk).
    unfold lshift. destruct (Z.ltb_spec (top - j) 0); [lia|].
    cbn [mbind result_bind]. rewrite IH by lia.
    rewrite Z.shiftl_mul_pow2 by lia.
    replace (top - (j + 1)) with (top - j - 1) by lia. f_equal. lia.
Qed.

Lemma bind_returns {A : Type} (m : result A) : (x ← m; Returns x) = m.
Proof. by destruct m. Qed.

(** Every list is a run of complete chunks of [w] elements followed by fewer
    than [w] elements. *)
Lemma chunk_decomposition (w : nat) (l : list Z) :
  (0 < w)%nat →
  ∃ (cs : list (list Z)) (extra : list Z),
    l = concat cs ++ extra
    ∧ Forall (λ c, length c = w) cs
    ∧ (length extra < w)%nat
    ∧ (length l = w * length cs + length extra)%nat.
Proof.
  intros Hw. remember (length l) as n eqn:Hn.
  revert l Hn. induction n as [n IH] using lt_wf_ind. intros l Hn.
  destruct (decide (length l < w)%nat) as [Hlt|Hge].
  - exists [], l. simpl. repeat split; [constructor|lia|lia].
  - destruct (IH (length (drop w l))) with (l := drop w l)
      as (cs & extra & Hl & Hcs & Hextra & Hlen);
      [rewrite length_drop; lia|done|].
    exists (take w l :: cs), extra. repeat split.
    + simpl. rewrite <- app_assoc, <- Hl. by rewrite take_drop.
    + constructor; [|done]. rewrite length_take. lia.
    + done.
    + rewrite length_drop in Hlen. simpl. lia.
Qed.

(** *** [string_to_binary] *)

Lemma string_to_binary_bits_spec (c : Z) (binary : list Z) :
  string_to_binary_bits c (range3 7 (-1) (-1)) binary
  = Returns (binary ++ char_bits c).
Proof.
  change (range3 7 (-1) (-1)) with [7; 6; 5; 4; 3; 2; 1; 0].
  cbn. by rewrite <- !app_assoc.
Qed.

Lemma string_to_binary_for_spec (input : text) :
  ∀ binary, string_to_binary_for input binary
            = Returns (binary ++ concat (char_bits <$> input)).
Proof.
  induction input as [|c input IH]; intros binary;
    cbn [string_to_binary_for fmap list_fmap concat].
  - by rewrite app_nil_r.
  - rewrite string_to_binary_bits_spec. cbn [mbind result_bind].
    by rewrite IH, <- app_assoc.
Qed.

Lemma string_to_binary_spec (input : text) :
  string_to_binary input = Returns (concat (char_bits <$> input)).
Proof. apply (string_to_binary_for_spec input []). Qed.

Lemma land_1 (x : Z) : Z.land x 1 = x `mod` 2.
Proof. exact (Z.land_ones x 1 ltac:(lia)). Qed.

Lemma char_bits_are_bits (c : Z) : Forall is_bit (char_bits c).
Proof.
  unfold char_bits. apply Forall_fmap, Forall_forall. intros i _. simpl.
  rewrite land_1. unfold is_bit.
  pose proof (Z.mod_pos_bound (Z.shiftr c i) 2). lia.
Qed.

Lemma char_bits_value (c : Z) : weighted 7 (char_bits c) = c `mod` 256.
Proof.
  cbn. rewrite !land_1, !Z.shiftr_div_pow2 by lia.
  change (2 ^ 7) with 128. change (2 ^ 6) with 64. change (2 ^ 5) with 32.
  change (2 ^ 4) with 16. change (2 ^ 3) with 8. change (2 ^ 2) with 4.
  change (2 ^ 1) with 2. change (2 ^ 0) with 1.
  Z.to_euclidean_division_equations; lia.
Qed.

(** X1. [string_to_binary] never raises, and yields eight values per
    character, each of them 0 or 1. *)
Theorem string_to_binary_eight_bits_per_char (input : text) :
  ∃ binary : list Z,
    string_to_binary input = Returns binary
    ∧ len binary = 8 * len input
    ∧ Forall is_bit binary.
Proof.
  exists (concat (char_bits <$> input)). split; [apply string_to_binary_spec|].
  induction input as [|c input [IHlen IHbits]]; [by repeat split|].
  cbn [fmap list_fmap concat]. split.
  - rewrite len_app, len_cons, IHlen. change (len (char_bits c)) with 8. lia.
  - apply Forall_app. split; [apply char_bits_are_bits|done].
Qed.

(** *** [binary_to_string] *)

Lemma binary_to_string_for_spec (cs : list (list Z)) :
  ∀ (pre extra : list Z) (output_text : text),
    Forall (λ c, length c = 8%nat) cs → (length extra < 8)%nat →
    binary_to_string_for (pre ++ concat cs ++ extra)
      (range3 (len pre) (len (pre ++ concat cs ++ extra)) 8) output_text
    = (chars ← map_result byte_char cs; Returns (output_text ++ chars)).
Proof.
  induction cs as [|c cs IH]; intros pre extra output_text Hcs Hextra.
  - cbn [concat app map_result mbind result_bind mret result_ret].
    rewrite app_nil_r, len_app.
    destruct extra as [|x extra].
    + rewrite range3_nil by (rewrite ?len_nil; lia). done.
    + assert (Hlen : 0 < len (x :: extra) < 8) by (unfold len; simpl in *; lia).
      rewrite range3_cons by lia. cbn [binary_to_string_for].
      rewrite len_app.
      destruct (Z.leb_spec (len pre + 8) (len pre + len (x :: extra))); [lia|].
      rewrite range3_nil by lia. done.
  - apply Forall_cons in Hcs as [Hc Hcs].
    assert (Hlenc : len c = 8) by (unfold len; lia).
    cbn [concat map_result]. rewrite <- (app_assoc c).
    set (rest := concat cs ++ extra).
    rewrite range3_cons
      by (rewrite ?len_app; pose proof (len_nonneg rest); lia).
    cbn [binary_to_string_for]. rewrite !len_app.
    pose proof (len_nonneg rest).
    destruct (Z.leb_spec (len pre + 8) (len pre + (len c + len rest))); [|lia].
    assert (Hslice : slice (pre ++ c ++ rest) (len pre) (len pre + 8) = c)
      by (rewrite <- Hlenc; apply slice_middle).
    rewrite Hslice, sum_shifted_spec by lia.
    change (7 - 0) with 7. rewrite Z.add_0_l.
    cbn [mbind result_bind]. unfold byte_char in *.
    destruct (chr (weighted 7 c)) as [char|e]; [|done].
    cbn [mbind result_bind].
    specialize (IH (pre ++ c) extra (output_text ++ [char]) Hcs Hextra).
    rewrite <- (app_assoc pre c) in IH. fold rest in IH.
    rewrite (len_app pre c), (len_app pre (c ++ rest)), (len_app c rest),
      Hlenc in IH.
    rewrite Hlenc, IH.
    destruct (map_result _ cs); [|done].
    cbn [mbind result_bind]. by rewrite <- app_assoc.
Qed.

Lemma binary_to_string_spec (cs : list (list Z)) (extra : list Z) :
  Forall (λ c, length c = 8%nat) cs → (length extra < 8)%nat →
  binary_to_string (concat cs ++ extra) = map_result byte_char cs.
Proof.
  intros Hcs Hextra. unfold binary_to_string.
  pose proof (binary_to_string_for_spec cs [] extra [] Hcs Hextra) as H.
  cbn [app] in H. change (len []) with 0 in H. rewrite H.
  apply bind_returns.
Qed.

Lemma weighted_bits_bound (chunk : list Z) :
  ∀ top, Forall is_bit chunk → len chunk ≤ top + 1 →
         0 ≤ weighted top chunk < 2 ^ (top + 1).
Proof.
  induction chunk as [|bit chunk IH]; intros top Hbits Hlen.
  - simpl. rewrite len_nil in Hlen. pose proof (Z.pow_pos_nonneg 2 (top + 1)). lia.
  - apply Forall_cons in Hbits as [Hbit Hbits]. rewrite len_cons in Hlen.
    pose proof (len_nonneg chunk).
    specialize (IH (top - 1) Hbits ltac:(lia)).
    replace (top - 1 + 1) with top in IH by lia.
    cbn [weighted]. replace (top + 1) with (Z.succ top) by lia.
    rewrite Z.pow_succ_r by lia. destruct Hbit as [-> | ->]; lia.
Qed.

Lemma chr_in_range (c : Z) : 0 ≤ c < 1114112 → chr c = Returns c.
Proof.
  intros H. unfold chr.
  destruct (Z.ltb_spec c (-2147483648)), (Z.ltb_spec 2147483647 c),
    (Z.leb_spec 0 c), (Z.ltb_spec c 1114112); try lia. done.
Qed.

Lemma map_result_char_bits (input : text) :
  map_result byte_char (char_bits <$> input)
  = Returns ((λ c, c `mod` 256) <$> input).
Proof.
  induction input as [|c input IH]; [done|].
  cbn [fmap list_fmap map_result]. unfold byte_char in *.
  rewrite char_bits_value, chr_in_range
    by (pose proof (Z.mod_pos_bound c 256); lia).
  cbn [mbind result_bind]. rewrite IH. done.
Qed.

Lemma char_bits_chunks (input : text) :
  Forall (λ c, length c = 8%nat) (char_bits <$> input).
Proof. apply Forall_fmap, Forall_forall. by intros c _. Qed.

Lemma mod_256_small (input : text) :
  Forall (λ c, 0 ≤ c < 256) input → (λ c, c `mod` 256) <$> input = input.
Proof.
  induction 1 as [|c input Hc _ IH]; [done|].
  cbn [fmap list_fmap]. rewrite IH, Z.mod_small by lia. done.
Qed.

(** X2. Framing a text with [string_to_binary] and reading it back with
    [binary_to_string] returns every character reduced to its low byte; a
    text whose code points are all below 256 comes back unchanged. *)
Theorem text_framing_roundtrip (input : text) :
  (binary ← string_to_binary input; binary_to_string binary)
  = Returns ((λ c, c `mod` 256) <$> input)
  ∧ (Forall (λ c, 0 ≤ c < 256) input →
     (binary ← string_to_binary input; binary_to_string binary)
     = Returns input).
Proof.
  assert (H : (binary ← string_to_binary input; binary_to_string binary)
              = Returns ((λ c, c `mod` 256) <$> input)).
  { rewrite string_to_binary_spec. cbn [mbind result_bind].
    rewrite <- (app_nil_r (concat _)).
    rewrite binary_to_string_spec by (simpl; auto using char_bits_chunks; lia).
    apply map_result_char_bits. }
  split; [done|]. intros Hsmall. by rewrite H, mod_256_small.
Qed.

Lemma whole_chunks (w : nat) (binary : list Z) :
  (0 < w)%nat → len binary `mod` Z.of_nat w = 0 →
  ∃ cs, binary = concat cs ∧ Forall (λ c, length c = w) cs.
Proof.
  intros Hw Hmod.
  destruct (chunk_decomposition w binary Hw) as (cs & extra & -> & Hcs & Hx & Hl).
  exists cs. split; [|done].
  assert (length extra = 0%nat) as Hnil.
  { unfold len in Hmod. rewrite Hl in Hmod.
    rewrite Nat2Z.inj_add, Nat2Z.inj_mul in Hmod.
    rewrite Z.add_comm, Z.mul_comm, Z.mod_add in Hmod by lia.
    rewrite Z.mod_small in Hmod by lia. lia. }
  apply nil_length_inv in Hnil as ->. by rewrite app_nil_r.
Qed.

(** X3. [binary_to_string] reads whole bytes only: up to seven values after
    the last complete byte change nothing, neither the text returned nor
    whether an exception is raised. *)
Theorem binary_to_string_drops_incomplete_byte (binary extra : list Z)
  (Hwhole : len binary `mod` 8 = 0) (Hextra : len extra < 8) :
  binary_to_string (binary ++ extra) = binary_to_string binary.
Proof.
  destruct (whole_chunks 8 binary ltac:(lia) Hwhole) as (cs & -> & Hcs).
  rewrite binary_to_string_spec by (unfold len in Hextra; done || lia).
  rewrite <- (app_nil_r (concat cs)).
  rewrite binary_to_string_spec by (simpl; done || lia). done.
Qed.

Lemma binary_to_string_drops_incomplete_byte_witness :
  len [0; 1; 0; 0; 1; 0; 0; 0] `mod` 8 = 0
  ∧ len [1; 1; 0] < 8
  ∧ binary_to_string ([0; 1; 0; 0; 1; 0; 0; 0] ++ [1; 1; 0])
    = binary_to_string [0; 1; 0; 0; 1; 0; 0; 0].
Proof.
  split; [reflexivity|]. split; [reflexivity|].
  apply (binary_to_string_drops_incomplete_byte [0; 1; 0; 0; 1; 0; 0; 0]
           [1; 1; 0]); reflexivity.
Defined.

Lemma map_result_bits (cs : list (list Z)) :
  Forall (λ c, length c = 8%nat) cs → Forall (Forall is_bit) cs →
  map_result byte_char cs = Returns (weighted 7 <$> cs)
  ∧ Forall (λ c, 0 ≤ c < 256) (weighted 7 <$> cs).
Proof.
  induction cs as [|c cs IH]; intros Hlen Hbits; [by split|].
  apply Forall_cons in Hlen as [Hc Hlen]. apply Forall_cons in Hbits as [Hb Hbits].
  destruct (IH Hlen Hbits) as [IHr IHf].
  pose proof (weighted_bits_bound c 7 Hb ltac:(unfold len; lia)) as Hbound.
  change (2 ^ (7 + 1)) with 256 in Hbound.
  cbn [map_result fmap list_fmap]. unfold byte_char in *.
  rewrite chr_in_range by lia. cbn [mbind result_bind]. rewrite IHr.
  split; [done|]. by constructor.
Qed.

Lemma binary_to_string_bits_shape (binary : list Z) :
  Forall is_bit binary →
  ∃ output_text : text,
    binary_to_string binary = Returns output_text
    ∧ len output_text = len binary `div` 8
    ∧ Forall (λ c, 0 ≤ c < 256) output_text.
Proof.
  intros Hbits.
  destruct (chunk_decomposition 8 binary ltac:(lia))
    as (cs & extra & -> & Hcs & Hx & Hl).
  apply Forall_app in Hbits as [Hbits _].
  apply Forall_concat in Hbits.
  destruct (map_result_bits cs Hcs Hbits) as [Hr Hf].
  exists (weighted 7 <$> cs). split; [by rewrite binary_to_string_spec|].
  split; [|done].
  unfold len. rewrite length_fmap, Hl.
  rewrite Nat2Z.inj_add, Nat2Z.inj_mul.
  rewrite Z.add_comm, Z.mul_comm, Z.div_add by lia.
  rewrite Z.div_small by lia. lia.
Qed.

(** X4. On a list of 0s and 1s [binary_to_string] never raises: it returns
    one character per complete byte, each with a code below 256. *)
Theorem binary_to_string_of_bits (binary : list Z)
  (Hbits : Forall is_bit binary) :
  ∃ output_text : text,
    binary_to_string binary = Returns output_text
    ∧ len output_text = len binary `div` 8
    ∧ Forall (λ c, 0 ≤ c < 256) output_text.
Proof. exact (binary_to_string_bits_shape binary Hbits). Qed.

Lemma binary_to_string_of_bits_witness :
  Forall is_bit [0; 1; 0; 0; 1; 0; 0; 0; 1]
  ∧ ∃ output_text : text,
      binary_to_string [0; 1; 0; 0; 1; 0; 0; 0; 1] = Returns output_text
      ∧ len output_text = len [0; 1; 0; 0; 1; 0; 0; 0; 1] `div` 8
      ∧ Forall (λ c, 0 ≤ c < 256) output_text.
Proof.
  assert (H : Forall is_bit [0; 1; 0; 0; 1; 0; 0; 0; 1])
    by (repeat constructor; (by left) || (by right)).
  split; [exact H|].
  apply (binary_to_string_of_bits [0; 1; 0; 0; 1; 0; 0; 0; 1] H).
Defined.

(** *** [binary_to_hex] *)

Lemma append_cons (c : Ascii.ascii) (s1 s2 : string) :
  String c s1 +:+ s2 = String c (s1 +:+ s2).
Proof. reflexivity. Qed.

Lemma append_assoc (s1 s2 s3 : string) :
  (s1 +:+ s2) +:+ s3 = s1 +:+ (s2 +:+ s3).
Proof.
  induction s1 as [|c s1 IH]; [done|]. by rewrite !append_cons, IH.
Qed.

Lemma append_empty_r (s : string) : s +:+ "" = s.
Proof. induction s as [|c s IH]; [done|]. by rewrite append_cons, IH. Qed.

Lemma binary_to_hex_for_spec (cs : list (list Z)) :
  ∀ (pre extra : list Z) (hex_result : string),
    Forall (λ c, length c = 4%nat) cs → (length extra < 4)%nat →
    binary_to_hex_for (pre ++ concat cs ++ extra)
      (range3 (len pre) (len (pre ++ concat cs ++ extra)) 4) hex_result
    = Returns (hex_result +:+ hex_text cs).
Proof.
  induction cs as [|c cs IH]; intros pre extra hex_result Hcs Hextra.
  - cbn [concat app hex_text foldr]. rewrite append_empty_r, len_app.
    destruct extra as [|x extra].
    + rewrite range3_nil by (rewrite ?len_nil; lia). done.
    + assert (Hlen : 0 < len (x :: extra) < 4) by (unfold len; simpl in *; lia).
      rewrite range3_cons by lia. cbn [binary_to_hex_for].
      rewrite len_app.
      destruct (Z.leb_spec (len pre + 4) (len pre + len (x :: extra))); [lia|].
      rewrite range3_nil by lia. done.
  - apply Forall_cons in Hcs as [Hc Hcs].
    assert (Hlenc : len c = 4) by (unfold len; lia).
    cbn [concat hex_text foldr]. rewrite <- (app_assoc c).
    set (rest := concat cs ++ extra).
    rewrite range3_cons
      by (rewrite ?len_app; pose proof (len_nonneg rest); lia).
    cbn [binary_to_hex_for]. rewrite !len_app.
    pose proof (len_nonneg rest).
    destruct (Z.leb_spec (len pre + 4) (len pre + (len c + len rest))); [|lia].
    assert (Hslice : slice (pre ++ c ++ rest) (len pre) (len pre + 4) = c)
      by (rewrite <- Hlenc; apply slice_middle).
    rewrite Hslice, sum_shifted_spec by lia.
    change (3 - 0) with 3. rewrite Z.add_0_l. cbn [mbind result_bind].
    specialize (IH (pre ++ c) extra
                  (hex_result +:+ upper (format_x (weighted 3 c))) Hcs Hextra).
    rewrite <- (app_assoc pre c) in IH. fold rest in IH.
    rewrite (len_app pre c), (len_app pre (c ++ rest)), (len_app c rest),
      Hlenc in IH.
    rewrite Hlenc, IH. fold (hex_text cs). by rewrite append_assoc.
Qed.

Lemma binary_to_hex_spec (cs : list (list Z)) (extra : list Z) :
  Forall (λ c, length c = 4%nat) cs → (length extra < 4)%nat →
  binary_to_hex (concat cs ++ extra) = Returns (hex_text cs).
Proof.
  intros Hcs Hextra. unfold binary_to_hex.
  pose proof (binary_to_hex_for_spec cs [] extra "" Hcs Hextra) as H.
  cbn [app] in H. change (len []) with 0 in H. by rewrite H.
Qed.

(** A number from 0 to 15 is printed as its one upper-case digit. *)
Lemma nibble_digit (v : Z) :
  0 ≤ v < 16 → upper (format_x v) = String (hex_digit v) "".
Proof.
  intros H.
  assert (v = 0 ∨ v = 1 ∨ v = 2 ∨ v = 3 ∨ v = 4 ∨ v = 5 ∨ v = 6 ∨ v = 7
          ∨ v = 8 ∨ v = 9 ∨ v = 10 ∨ v = 11 ∨ v = 12 ∨ v = 13 ∨ v = 14
          ∨ v = 15) as Hv by lia.
  repeat (destruct Hv as [-> | Hv]; [reflexivity|]). by subst.
Qed.

Lemma hex_digit_in_digits (v : Z) : 0 ≤ v < 16 → hex_digit v ∈ hex_digits.
Proof.
  intros H. unfold hex_digit, hex_digits.
  destruct (String.list_ascii_of_string "0123456789ABCDEF" !! Z.to_nat v)
    as [d|] eqn:E.
  - simpl. by apply list_elem_of_lookup_2 in E.
  - apply lookup_ge_None in E. simpl in E. lia.
Qed.

Lemma hex_text_bits (cs : list (list Z)) :
  Forall (λ c, length c = 4%nat) cs → Forall (Forall is_bit) cs →
  String.length (hex_text cs) = length cs
  ∧ Forall (λ d, d ∈ hex_digits) (String.list_ascii_of_string (hex_text cs)).
Proof.
  induction cs as [|c cs IH]; intros Hlen Hbits; [by split|].
  apply Forall_cons in Hlen as [Hc Hlen]. apply Forall_cons in Hbits as [Hb Hbits].
  destruct (IH Hlen Hbits) as [IHl IHd].
  pose proof (weighted_bits_bound c 3 Hb ltac:(unfold len; lia)) as Hbound.
  change (2 ^ (3 + 1)) with 16 in Hbound.
  cbn [hex_text foldr]. fold (hex_text cs). unfold nibble_text.
  rewrite nibble_digit by done. rewrite append_cons.
  change ("" +:+ hex_text cs) with (hex_text cs).
  cbn [String.length String.list_ascii_of_string]. split; [by rewrite IHl|].
  constructor; [by apply hex_digit_in_digits|done].
Qed.

(** X5. [binary_to_hex] never raises, whatever integers the list holds.  On
    a list of 0s and 1s it returns one upper-case hexadecimal digit per
    complete group of four values and nothing for an incomplete last
    group. *)
Theorem binary_to_hex_of_bits (binary : list Z) :
  ∃ hex_result : string,
    binary_to_hex binary = Returns hex_result
    ∧ (Forall is_bit binary →
       Z.of_nat (String.length hex_result) = len binary `div` 4
       ∧ Forall (λ d, d ∈ hex_digits) (String.list_ascii_of_string hex_result)).
Proof.
  destruct (chunk_decomposition 4 binary ltac:(lia))
    as (cs & extra & -> & Hcs & Hx & Hl).
  exists (hex_text cs). split; [by rewrite binary_to_hex_spec|].
  intros Hbits. apply Forall_app in Hbits as [Hbits _].
  apply Forall_concat in Hbits.
  destruct (hex_text_bits cs Hcs Hbits) as [Hlen Hdigits].
  split; [|done]. rewrite Hlen. unfold len. rewrite Hl.
  rewrite Nat2Z.inj_add, Nat2Z.inj_mul.
  rewrite Z.add_comm, Z.mul_comm, Z.div_add by lia.
  rewrite Z.div_small by lia. lia.
Qed.

Lemma nibble_values (c : Z) :
  weighted 3 (high_nibble c) = (c `mod` 256) `div` 16
  ∧ weighted 3 (low_nibble c) = c `mod` 16.
Proof.
  cbn. rewrite !land_1, !Z.shiftr_div_pow2 by lia.
  change (2 ^ 7) with 128. change (2 ^ 6) with 64. change (2 ^ 5) with 32.
  change (2 ^ 4) with 16. change (2 ^ 3) with 8. change (2 ^ 2) with 4.
  change (2 ^ 1) with 2. change (2 ^ 0) with 1.
  split; Z.to_euclidean_division_equations; lia.
Qed.

Lemma hex_text_nibbles (input : text) :
  hex_text (input ≫= λ c, [high_nibble c; low_nibble c]) = hex_dump input.
Proof.
  induction input as [|c input IH]; [done|].
  cbn [mbind list_bind app hex_text foldr hex_dump].
  fold (hex_text (input ≫= λ c, [high_nibble c; low_nibble c])).
  rewrite IH. unfold nibble_text.
  destruct (nibble_values c) as [-> ->].
  rewrite !nibble_digit; [by rewrite !append_cons| |].
  - pose proof (Z.mod_pos_bound c 16). lia.
  - Z.to_euclidean_division_equations; lia.
Qed.

Lemma char_bits_nibbles (input : text) :
  concat (char_bits <$> input)
  = concat (input ≫= λ c, [high_nibble c; low_nibble c]).
Proof.
  induction input as [|c input IH]; [done|].
  cbn [fmap list_fmap concat mbind list_bind app]. rewrite IH.
  change (char_bits c) with (high_nibble c ++ low_nibble c).
  by rewrite <- app_assoc.
Qed.

Lemma nibbles_chunks (input : text) :
  Forall (λ c, length c = 4%nat) (input ≫= λ c, [high_nibble c; low_nibble c]).
Proof.
  induction input as [|c input IH]; [constructor|].
  cbn [mbind list_bind app]. by repeat constructor.
Qed.

(** X6. [binary_to_hex] of the bits [string_to_binary] makes of a text is
    the hexadecimal dump of the text: two upper-case digits for the low
    byte of each character, in order. *)
Theorem text_hex_dump (input : text) :
  (binary ← string_to_binary input; binary_to_hex binary)
  = Returns (hex_dump input).
Proof.
  rewrite string_to_binary_spec. cbn [mbind result_bind].
  rewrite char_bits_nibbles, <- (app_nil_r (concat _)).
  rewrite binary_to_hex_spec by (simpl; auto using nibbles_chunks; lia).
  by rewrite hex_text_nibbles.
Qed.

End Text.

(** ** The shape of what the encoders emit *)

Section EncoderShape.

Lemma manchester_encode_for_len (binary_data : list Z) :
  ∀ encoded, len (manchester_encode_for binary_data encoded)
             = len encoded + 2 * len binary_data.
Proof.
  induction binary_data as [|bit binary_data IH]; intros encoded; simpl.
  - rewrite len_nil. lia.
  - rewrite len_cons.
    destruct (bit =? 0); rewrite IH, len_app, !len_cons, len_nil; lia.
Qed.

Lemma nrzi_encode_for_len (binary_data : list Z) :
  ∀ level encoded, len (nrzi_encode_for binary_data level encoded)
                   = len encoded + len binary_data.
Proof.
  induction binary_data as [|bit binary_data IH]; intros level encoded; simpl.
  - rewrite len_nil. lia.
  - rewrite len_cons.
    destruct (bit =? 0); rewrite IH, len_app, !len_cons, len_nil; lia.
Qed.

Lemma ami_encode_for_len (binary_data : list Z) :
  ∀ p encoded, len (ami_encode_for binary_data p encoded)
               = len encoded + len binary_data.
Proof.
  induction binary_data as [|bit binary_data IH]; intros p encoded; simpl.
  - rewrite len_nil. lia.
  - rewrite len_cons.
    destruct (bit =? 0); rewrite IH, len_app, !len_cons, len_nil; lia.
Qed.

Lemma biphase_mark_encode_for_len (binary_data : list Z) :
  ∀ level encoded, len (biphase_mark_encode_for binary_data level encoded)
                   = len encoded + 2 * len binary_data.
Proof.
  induction binary_data as [|bit binary_data IH]; intros level encoded; simpl.
  - rewrite len_nil. lia.
  - rewrite len_cons, IH, !len_app, !len_cons, len_nil. lia.
Qed.

Lemma biphase_space_encode_for_len (binary_data : list Z) :
  ∀ level encoded, len (biphase_space_encode_for binary_data level encoded)
                   = len encoded + 2 * len binary_data.
Proof.
  induction binary_data as [|bit binary_data IH]; intros level encoded; simpl.
  - rewrite len_nil. lia.
  - rewrite len_cons, IH, !len_app, !len_cons, len_nil. lia.
Qed.

Lemma differential_manchester_encode_for_len (binary_data : list Z) :
  ∀ level encoded,
    len (differential_manchester_encode_for binary_data level encoded)
    = len encoded + 2 * len binary_data.
Proof.
  induction binary_data as [|bit binary_data IH]; intros level encoded; simpl.
  - rewrite len_nil. lia.
  - rewrite len_cons.
    destruct (bit =? 0); rewrite IH, !len_app, !len_cons, len_nil; lia.
Qed.

(** X7. Whenever [encode] returns, the level sequence has one level per
    input element for NRZ, NRZI and AMI and two levels per input element for
    Manchester, Biphase-Mark, Biphase-Space and Differential Manchester. *)
Theorem encode_output_length (binary_data : list Z) (method : string)
  (levels : list Z)
  (Hencode : encode binary_data method = Returns levels) :
  len levels = levels_per_bit method * len binary_data.
Proof.
  unfold encode in Hencode.
  destruct (encoding_methods !! method) as [encoder|] eqn:E; [|done].
  injection Hencode as <-.
  apply elem_of_list_to_map_2 in E. unfold encoding_table in E.
  repeat (apply elem_of_cons in E as [[= -> ->] | E]);
    [..|by apply elem_of_nil in E]; cbn [levels_per_bit].
  - unfold manchester_encode. rewrite manchester_encode_for_len, len_nil.
    by vm_compute (levels_per_bit _).
  - unfold nrz_encode. rewrite nrz_encode_for_app.
    vm_compute (levels_per_bit _). simpl. lia.
  - unfold nrzi_encode. rewrite nrzi_encode_for_len, len_nil.
    vm_compute (levels_per_bit _). lia.
  - unfold ami_encode. rewrite ami_encode_for_len, len_nil.
    vm_compute (levels_per_bit _). lia.
  - unfold biphase_mark_encode. rewrite biphase_mark_encode_for_len, len_nil.
    by vm_compute (levels_per_bit _).
  - unfold biphase_space_encode. rewrite biphase_space_encode_for_len, len_nil.
    by vm_compute (levels_per_bit _).
  - unfold differential_manchester_encode.
    rewrite differential_manchester_encode_for_len, len_nil.
    by vm_compute (levels_per_bit _).
Qed.

Lemma encode_output_length_witness :
  encode [1; 0; 1] "Biphase_Mark" = Returns [1; 0; 0; 1; 0; 1]
  ∧ len [1; 0; 0; 1; 0; 1] = levels_per_bit "Biphase_Mark" * len [1; 0; 1].
Proof.
  split; [reflexivity|].
  apply (encode_output_length [1; 0; 1] "Biphase_Mark" [1; 0; 0; 1; 0; 1]).
  reflexivity.
Defined.

Lemma is_bit_flip (level : Z) : is_bit level → is_bit (1 - level).
Proof. unfold is_bit. lia. Qed.

(** Splits a goal [Forall P (l ++ [x; ...])] into its elements. *)
Ltac forall_elements :=
  repeat first
    [ assumption
    | apply Forall_app; split
    | apply Forall_cons_2
    | apply Forall_nil_2 ].

Lemma manchester_encode_for_bits (binary_data : list Z) :
  ∀ encoded, Forall is_bit encoded →
             Forall is_bit (manchester_encode_for binary_data encoded).
Proof.
  induction binary_data as [|bit binary_data IH]; intros encoded He; [done|].
  simpl. destruct (bit =? 0); apply IH; forall_elements; unfold is_bit; lia.
Qed.

Lemma nrzi_encode_for_bits (binary_data : list Z) :
  ∀ level encoded, is_bit level → Forall is_bit encoded →
                   Forall is_bit (nrzi_encode_for binary_data level encoded).
Proof.
  induction binary_data as [|bit binary_data IH]; intros level encoded Hl He;
    [done|].
  pose proof (is_bit_flip level Hl).
  simpl. destruct (bit =? 0); apply IH; forall_elements.
Qed.

Lemma biphase_mark_encode_for_bits (binary_data : list Z) :
  ∀ level encoded, is_bit level → Forall is_bit encoded →
                   Forall is_bit (biphase_mark_encode_for binary_data level encoded).
Proof.
  induction binary_data as [|bit binary_data IH]; intros level encoded Hl He;
    [done|].
  simpl.
  assert (is_bit (if bit =? 1 then 1 - level else level)) as Hf
    by (destruct (bit =? 1); auto using is_bit_flip).
  pose proof (is_bit_flip _ Hf).
  apply IH; forall_elements.
Qed.

Lemma biphase_space_encode_for_bits (binary_data : list Z) :
  ∀ level encoded, is_bit level → Forall is_bit encoded →
                   Forall is_bit (biphase_space_encode_for binary_data level encoded).
Proof.
  induction binary_data as [|bit binary_data IH]; intros level encoded Hl He;
    [done|].
  simpl.
  assert (is_bit (if bit =? 0 then 1 - level else level)) as Hf
    by (destruct (bit =? 0); auto using is_bit_flip).
  pose proof (is_bit_flip _ Hf).
  apply IH; forall_elements.
Qed.

Lemma differential_manchester_encode_for_bits (binary_data : list Z) :
  ∀ level encoded,
    is_bit level → Forall is_bit encoded →
    Forall is_bit (differential_manchester_encode_for binary_data level encoded).
Proof.
  induction binary_data as [|bit binary_data IH]; intros level encoded Hl He;
    [done|].
  pose proof (is_bit_flip level Hl) as Hf.
  pose proof (is_bit_flip _ Hf) as Hff.
  simpl. destruct (bit =? 0); apply IH; forall_elements.
Qed.

Lemma ami_encode_for_ternary (binary_data : list Z) :
  ∀ p encoded, (p = 1 ∨ p = -1) → Forall is_ternary encoded →
               Forall is_ternary (ami_encode_for binary_data p encoded).
Proof.
  induction binary_data as [|bit binary_data IH]; intros p encoded Hp He;
    [done|].
  simpl. destruct (bit =? 0); apply IH; forall_elements;
    unfold is_ternary; lia.
Qed.

(** X8. Whatever integers the input holds, the Manchester, NRZI,
    Biphase-Mark, Biphase-Space and Differential Manchester encoders emit
    only the levels 0 and 1, and the AMI encoder emits only -1, 0 and 1. *)
Theorem encoders_keep_their_alphabet (binary_data : list Z) :
  Forall is_bit (manchester_encode binary_data)
  ∧ Forall is_bit (nrzi_encode binary_data)
  ∧ Forall is_bit (biphase_mark_encode binary_data)
  ∧ Forall is_bit (biphase_space_encode binary_data)
  ∧ Forall is_bit (differential_manchester_encode binary_data)
  ∧ Forall is_ternary (ami_encode binary_data).
Proof.
  assert (is_bit 0) by (by left).
  repeat split.
  - by apply manchester_encode_for_bits.
  - by apply nrzi_encode_for_bits.
  - by apply biphase_mark_encode_for_bits.
  - by apply biphase_space_encode_for_bits.
  - by apply differential_manchester_encode_for_bits.
  - apply ami_encode_for_ternary; [lia|done].
Qed.

Lemma symbol_of_bit (first : Z) :
  is_bit first → low_high first (1 - first) || high_low first (1 - first) = true.
Proof. by intros [-> | ->]. Qed.

Lemma biphase_mark_encode_for_valid (binary_data : list Z) :
  ∀ level, is_bit level →
           valid_symbols (biphase_mark_encode_for binary_data level []) = true.
Proof.
  induction binary_data as [|bit binary_data IH]; intros level Hl; [done|].
  rewrite biphase_mark_encode_for_cons. cbn zeta.
  assert (is_bit (if bit =? 1 then 1 - level else level)) as Hf
    by (destruct (bit =? 1); auto using is_bit_flip).
  cbn [valid_symbols]. rewrite symbol_of_bit, IH by auto using is_bit_flip. done.
Qed.

Lemma biphase_space_encode_for_valid (binary_data : list Z) :
  ∀ level, is_bit level →
           valid_symbols (biphase_space_encode_for binary_data level []) = true.
Proof.
  induction binary_data as [|bit binary_data IH]; intros level Hl; [done|].
  rewrite biphase_space_encode_for_cons. cbn zeta.
  assert (is_bit (if bit =? 0 then 1 - level else level)) as Hf
    by (destruct (bit =? 0); auto using is_bit_flip).
  cbn [valid_symbols]. rewrite symbol_of_bit, IH by auto using is_bit_flip. done.
Qed.

Lemma differential_manchester_encode_for_valid (binary_data : list Z) :
  ∀ level, is_bit level →
           valid_symbols (differential_manchester_encode_for binary_data level [])
           = true.
Proof.
  induction binary_data as [|bit binary_data IH]; intros level Hl; [done|].
  rewrite differential_manchester_encode_for_cons. cbn zeta.
  assert (is_bit (if bit =? 0 then level else 1 - level)) as Hf
    by (destruct (bit =? 0); auto using is_bit_flip).
  cbn [valid_symbols]. rewrite symbol_of_bit, IH by auto using is_bit_flip. done.
Qed.

(** X9. The four two-level encoders always put a transition in the middle
    of a symbol: every symbol of their output is (0,1) or (1,0), whatever
    integers the input holds. *)
Theorem two_level_encoders_switch_mid_symbol (binary_data : list Z) :
  valid_symbols (manchester_encode binary_data) = true
  ∧ valid_symbols (biphase_mark_encode binary_data) = true
  ∧ valid_symbols (biphase_space_encode binary_data) = true
  ∧ valid_symbols (differential_manchester_encode binary_data) = true.
Proof.
  assert (is_bit 0) by (by left).
  split; [apply manchester_encode_valid|].
  split; [by apply biphase_mark_encode_for_valid|].
  split; [by apply biphase_space_encode_for_valid|].
  by apply differential_manchester_encode_for_valid.
Qed.

End EncoderShape.

(** ** Each decoder against its encoder *)

Section Inversion.

Lemma errors_valid (levels : list Z) :
  valid_symbols levels = true → ∀ i, errors i levels = [].
Proof.
  induction levels as [|x|a b levels IH] using pair_induction;
    intros Hv i; try done.
  cbn [valid_symbols errors] in *. apply andb_prop in Hv as [-> Hv]. auto.
Qed.

(** X10. NRZ and AMI invert: [nrz_encode] copies its input and [nrz_decode]
    returns its input, and for a list of 0s and 1s [ami_decode] of
    [ami_encode] is the list itself (the sign of a level is dropped). *)
Theorem nrz_and_ami_invert (binary_data : list Z)
  (Hbits : Forall is_bit binary_data) :
  nrz_encode binary_data = binary_data
  ∧ nrz_decode (nrz_encode binary_data) = Returns binary_data
  ∧ ami_decode (ami_encode binary_data) = Returns binary_data.
Proof.
  assert (Hnrz : nrz_encode binary_data = binary_data)
    by (unfold nrz_encode; by rewrite nrz_encode_for_app).
  split; [done|]. split; [by rewrite Hnrz|].
  unfold ami_decode, ami_encode. by rewrite ami_decode_encode.
Qed.

Lemma nrz_and_ami_invert_witness :
  Forall is_bit [1; 0; 1; 1]
  ∧ nrz_encode [1; 0; 1; 1] = [1; 0; 1; 1]
  ∧ nrz_decode (nrz_encode [1; 0; 1; 1]) = Returns [1; 0; 1; 1]
  ∧ ami_decode (ami_encode [1; 0; 1; 1]) = Returns [1; 0; 1; 1].
Proof.
  assert (H : Forall is_bit [1; 0; 1; 1])
    by (repeat apply Forall_cons_2; (by left) || (by right) || constructor).
  split; [exact H|]. apply (nrz_and_ami_invert [1; 0; 1; 1] H).
Defined.

(** X11. Manchester inverts on lists of 0s and 1s.  [manchester_decode] of
    teste.py returns the bits and prints nothing; the one of teste1.py
    returns the bits followed by the 0s that bring the length to a multiple
    of 8, prints the number of 0s when there are any, and prints no
    warning. *)
Theorem manchester_inverts (binary_data : list Z)
  (Hbits : Forall is_bit binary_data) :
  Teste.manchester_decode (manchester_encode binary_data)
  = Returns (binary_data, [])
  ∧ Teste1.manchester_decode (manchester_encode binary_data)
    = Returns (binary_data
                 ++ replicate (Z.to_nat ((- len binary_data) `mod` 8)) 0,
               if decide ((- len binary_data) `mod` 8 = 0) then []
               else [PaddingAdicionado ((- len binary_data) `mod` 8)]).
Proof.
  pose proof (manchester_encode_valid binary_data) as Hvalid.
  split.
  - rewrite teste_manchester_decode_spec, valid_bits_manchester_encode by done.
    by rewrite (errors_valid _ Hvalid).
  - rewrite teste1_manchester_decode_spec, pad_spec.
    rewrite (valid_symbols_agree _ Hvalid), (warnings_valid _ Hvalid).
    by rewrite valid_bits_manchester_encode.
Qed.

Lemma manchester_inverts_witness :
  Forall is_bit [1; 0; 1]
  ∧ Teste.manchester_decode (manchester_encode [1; 0; 1])
    = Returns ([1; 0; 1], [])
  ∧ Teste1.manchester_decode (manchester_encode [1; 0; 1])
    = Returns ([1; 0; 1] ++ replicate (Z.to_nat ((- len [1; 0; 1]) `mod` 8)) 0,
               if decide ((- len [1; 0; 1]) `mod` 8 = 0) then []
               else [PaddingAdicionado ((- len [1; 0; 1]) `mod` 8)]).
Proof.
  assert (H : Forall is_bit [1; 0; 1])
    by (repeat apply Forall_cons_2; (by left) || (by right) || constructor).
  split; [exact H|]. apply (manchester_inverts [1; 0; 1] H).
Defined.

(** X12. NRZI and Differential Manchester lose the first bit: decoding the
    encoding of a bit followed by a list of 0s and 1s returns the list
    without the first bit, whatever that bit was. *)
Theorem nrzi_and_differential_lose_first_bit (first : Z) (binary_data : list Z)
  (Hbits : Forall is_bit binary_data) :
  nrzi_decode (nrzi_encode (first :: binary_data)) = Returns binary_data
  ∧ differential_manchester_decode
      (differential_manchester_encode (first :: binary_data))
    = Returns binary_data.
Proof.
  split.
  - unfold nrzi_encode. rewrite nrzi_encode_for_cons. cbn zeta.
    by rewrite nrzi_decode_cons, transitions_nrzi_encode.
  - unfold differential_manchester_encode.
    by rewrite differential_manchester_decode_spec, next_symbol_bits_encode.
Qed.

Lemma nrzi_and_differential_lose_first_bit_witness :
  Forall is_bit [0; 1; 1]
  ∧ nrzi_decode (nrzi_encode (1 :: [0; 1; 1])) = Returns [0; 1; 1]
  ∧ differential_manchester_decode
      (differential_manchester_encode (1 :: [0; 1; 1]))
    = Returns [0; 1; 1].
Proof.
  assert (H : Forall is_bit [0; 1; 1])
    by (repeat apply Forall_cons_2; (by left) || (by right) || constructor).
  split; [exact H|].
  apply (nrzi_and_differential_lose_first_bit 1 [0; 1; 1] H).
Defined.

(** X13. The biphase decoders overwrite the first bit: decoding the
    encoding of a bit followed by a list of 0s and 1s returns the list with
    0 in front for Biphase-Mark and with 1 in front for Biphase-Space,
    whatever the first bit was. *)
Theorem biphase_overwrite_first_bit (first : Z) (binary_data : list Z)
  (Hbits : Forall is_bit binary_data) :
  biphase_mark_decode (biphase_mark_encode (first :: binary_data))
  = Returns (0 :: binary_data)
  ∧ biphase_space_decode (biphase_space_encode (first :: binary_data))
    = Returns (1 :: binary_data).
Proof.
  split.
  - unfold biphase_mark_encode. rewrite biphase_mark_encode_for_cons. cbn zeta.
    by rewrite biphase_mark_decode_cons, start_transitions_mark.
  - unfold biphase_space_encode. rewrite biphase_space_encode_for_cons. cbn zeta.
    by rewrite biphase_space_decode_cons, start_transitions_space.
Qed.

Lemma biphase_overwrite_first_bit_witness :
  Forall is_bit [0; 1; 1]
  ∧ biphase_mark_decode (biphase_mark_encode (1 :: [0; 1; 1]))
    = Returns (0 :: [0; 1; 1])
  ∧ biphase_space_decode (biphase_space_encode (1 :: [0; 1; 1]))
    = Returns (1 :: [0; 1; 1]).
Proof.
  assert (H : Forall is_bit [0; 1; 1])
    by (repeat apply Forall_cons_2; (by left) || (by right) || constructor).
  split; [exact H|].
  apply (biphase_overwrite_first_bit 1 [0; 1; 1] H).
Defined.

End Inversion.

(** ** The decoders on arbitrary level sequences *)

Section AnyInput.

Lemma div2_len (l : list Z) : Z.of_nat (Nat.div2 (length l)) = len l `div` 2.
Proof. unfold len. by rewrite Nat.div2_div, Nat2Z.inj_div. Qed.

Lemma transitions_bits (levels : list Z) :
  ∀ prev, Forall is_bit (transitions prev levels).
Proof.
  induction levels as [|cur levels IH]; intros prev; [constructor|].
  cbn [transitions]. apply Forall_cons_2; [|apply IH].
  destruct (neq cur prev); [by right|by left].
Qed.

Lemma nrzi_decode_any (encoded_data : list Z) :
  ∃ bits, nrzi_decode encoded_data = Returns bits
          ∧ Forall is_bit bits
          ∧ len bits = Z.max 0 (len encoded_data - 1).
Proof.
  destruct encoded_data as [|first levels].
  - exists []. by repeat split.
  - exists (transitions first levels). split; [apply nrzi_decode_cons|].
    split; [apply transitions_bits|].
    unfold len. rewrite transitions_length. simpl. lia.
Qed.

Lemma ami_decode_any (encoded_data : list Z) :
  ∃ bits, ami_decode encoded_data = Returns bits
          ∧ Forall is_bit bits
          ∧ len bits = len encoded_data.
Proof.
  exists (ami_decode_for encoded_data []). split; [done|].
  induction encoded_data as [|level encoded_data [IHb IHl]]; [by split|].
  cbn [ami_decode_for]. rewrite len_cons.
  destruct (level =? 0); rewrite ami_decode_for_app; cbn [app];
    (split; [apply Forall_cons_2; [(by left) || (by right)|done]
            |rewrite len_cons; lia]).
Qed.

Lemma start_transitions_length (levels : list Z) :
  ∀ prev, length (start_transitions prev levels) = Nat.div2 (length levels).
Proof.
  induction levels as [|x|a b levels IH] using pair_induction; intros prev;
    try done.
  simpl. by rewrite IH.
Qed.

Lemma mark_bits_are_bits (ts : list bool) : Forall is_bit (mark_bit <$> ts).
Proof.
  apply Forall_fmap, Forall_forall. intros [] _; simpl; [by right|by left].
Qed.

Lemma space_bits_are_bits (ts : list bool) : Forall is_bit (space_bit <$> ts).
Proof.
  apply Forall_fmap, Forall_forall. intros [] _; simpl; [by left|by right].
Qed.

Lemma biphase_mark_decode_short (encoded_data : list Z) :
  len encoded_data < 2 → biphase_mark_decode encoded_data = Returns [].
Proof.
  intros H. unfold biphase_mark_decode. rewrite biphase_mark_while_unfold.
  by destruct (Z.ltb_spec 0 (len encoded_data - 1)); [lia|].
Qed.

Lemma biphase_space_decode_short (encoded_data : list Z) :
  len encoded_data < 2 → biphase_space_decode encoded_data = Returns [].
Proof.
  intros H. unfold biphase_space_decode. rewrite biphase_space_while_unfold.
  by destruct (Z.ltb_spec 0 (len encoded_data - 1)); [lia|].
Qed.

Lemma biphase_mark_decode_any (encoded_data : list Z) :
  ∃ bits, biphase_mark_decode encoded_data = Returns bits
          ∧ Forall is_bit bits
          ∧ len bits = len encoded_data `div` 2.
Proof.
  destruct encoded_data as [|a [|b levels]].
  - exists []. by repeat split.
  - exists []. split; [by apply biphase_mark_decode_short|]. by split.
  - exists (0 :: (mark_bit <$> start_transitions b levels)).
    split; [apply biphase_mark_decode_cons|].
    split; [apply Forall_cons_2; [by left|apply mark_bits_are_bits]|].
    rewrite <- div2_len. unfold len. simpl.
    by rewrite length_fmap, start_transitions_length.
Qed.

Lemma biphase_space_decode_any (encoded_data : list Z) :
  ∃ bits, biphase_space_decode encoded_data = Returns bits
          ∧ Forall is_bit bits
          ∧ len bits = len encoded_data `div` 2.
Proof.
  destruct encoded_data as [|a [|b levels]].
  - exists []. by repeat split.
  - exists []. split; [by apply biphase_space_decode_short|]. by split.
  - exists (1 :: (space_bit <$> start_transitions b levels)).
    split; [apply biphase_space_decode_cons|].
    split; [apply Forall_cons_2; [by right|apply space_bits_are_bits]|].
    rewrite <- div2_len. unfold len. simpl.
    by rewrite length_fmap, start_transitions_length.
Qed.

Lemma next_symbol_bits_shape (levels : list Z) :
  Forall is_bit (next_symbol_bits levels)
  ∧ length (next_symbol_bits levels) = (Nat.div2 (length levels) - 1)%nat.
Proof.
  induction levels as [|x|a b levels [IHb IHl]] using pair_induction;
    try (by split).
  destruct levels as [|c [|e levels]]; try (by split).
  rewrite next_symbol_bits_cons. split.
  - apply Forall_cons_2; [|done]. destruct (a =? c); [by right|by left].
  - cbn [length Nat.div2] in *. rewrite IHl.
    generalize (Nat.div2 (length levels)). intros n. lia.
Qed.

Lemma differential_manchester_decode_any (encoded_data : list Z) :
  ∃ bits, differential_manchester_decode encoded_data = Returns bits
          ∧ Forall is_bit bits
          ∧ len bits = Z.max 0 (len encoded_data `div` 2 - 1).
Proof.
  exists (next_symbol_bits encoded_data).
  split; [apply differential_manchester_decode_spec|].
  destruct (next_symbol_bits_shape encoded_data) as [Hb Hl].
  split; [done|]. rewrite <- div2_len. unfold len. rewrite Hl. lia.
Qed.

Lemma recovered_bits_are_bits (levels : list Z) :
  ∀ prev, is_bit prev → Forall is_bit (recovered_bits prev levels).
Proof.
  induction levels as [|x|a b levels IH] using pair_induction; intros prev Hp;
    [constructor|constructor|].
  cbn [recovered_bits].
  assert (is_bit (if low_high a b then 0 else if high_low a b then 1 else prev))
    by (destruct (low_high a b); [by left|];
        destruct (high_low a b); [by right|done]).
  apply Forall_cons_2; [done|by apply IH].
Qed.

Lemma valid_bits_are_bits (levels : list Z) : Forall is_bit (valid_bits levels).
Proof.
  induction levels as [|x|a b levels IH] using pair_induction;
    [constructor|constructor|].
  cbn [valid_bits].
  destruct (low_high a b); [apply Forall_cons_2; [by left|done]|].
  destruct (high_low a b); [apply Forall_cons_2; [by right|done]|done].
Qed.

Lemma teste1_manchester_decode_any (encoded_data : list Z) :
  ∃ bits out, Teste1.manchester_decode encoded_data = Returns (bits, out)
              ∧ Forall is_bit bits.
Proof.
  rewrite teste1_manchester_decode_spec, pad_spec. eexists _, _.
  split; [done|]. apply Forall_app. split.
  - apply recovered_bits_are_bits. by left.
  - apply Forall_replicate. by left.
Qed.

Lemma teste_manchester_decode_any (encoded_data : list Z) :
  ∃ bits out, Teste.manchester_decode encoded_data = Returns (bits, out)
              ∧ Forall is_bit bits.
Proof.
  rewrite teste_manchester_decode_spec. eexists _, _.
  split; [done|]. apply valid_bits_are_bits.
Qed.

Section AnyManchester.

(** What follows holds for either version of [manchester_decode]. *)
Variable manchester_decode : decoder.
Hypothesis manchester_decode_any :
  ∀ encoded_data, ∃ bits out,
    manchester_decode encoded_data = Returns (bits, out) ∧ Forall is_bit bits.

Lemma decoding_methods_lookup (method : string) :
  decoding_methods manchester_decode !! method = None
  ↔ method ∉ get_available_encodings.
Proof.
  unfold decoding_methods. rewrite <- not_elem_of_list_to_map. done.
Qed.

Lemma decode_known (encoded_data : list Z) (method : string) :
  method ∈ get_available_encodings →
  ∃ bits out,
    decode manchester_decode encoded_data method = Returns (bits, out)
    ∧ (method ≠ "NRZ" → Forall is_bit bits).
Proof.
  intros Hin. unfold get_available_encodings, encoding_table in Hin.
  cbn [fmap list_fmap fst] in Hin.
  repeat (apply elem_of_cons in Hin as [-> | Hin]);
    [..|by apply elem_of_nil in Hin].
  - destruct (manchester_decode_any encoded_data) as (bits & out & H & Hb).
    exists bits, out. split; [exact H|done].
  - exists encoded_data, []. split; [reflexivity|done].
  - destruct (nrzi_decode_any encoded_data) as (bits & H & Hb & _).
    exists bits, []. split; [|done].
    change (decode manchester_decode encoded_data "NRZI")
      with (silent nrzi_decode encoded_data). unfold silent. by rewrite H.
  - destruct (ami_decode_any encoded_data) as (bits & H & Hb & _).
    exists bits, []. split; [|done].
    change (decode manchester_decode encoded_data "AMI")
      with (silent ami_decode encoded_data). unfold silent. by rewrite H.
  - destruct (biphase_mark_decode_any encoded_data) as (bits & H & Hb & _).
    exists bits, []. split; [|done].
    change (decode manchester_decode encoded_data "Biphase_Mark")
      with (silent biphase_mark_decode encoded_data). unfold silent.
    by rewrite H.
  - destruct (biphase_space_decode_any encoded_data) as (bits & H & Hb & _).
    exists bits, []. split; [|done].
    change (decode manchester_decode encoded_data "Biphase_Space")
      with (silent biphase_space_decode encoded_data). unfold silent.
    by rewrite H.
  - destruct (differential_manchester_decode_any encoded_data)
      as (bits & H & Hb & _).
    exists bits, []. split; [|done].
    change (decode manchester_decode encoded_data "Differential_Manchester")
      with (silent differential_manchester_decode encoded_data). unfold silent.
    by rewrite H.
Qed.

Lemma decode_outcome (encoded_data : list Z) (method : string) :
  (method ∈ get_available_encodings
   ↔ ∃ r, decode manchester_decode encoded_data method = Returns r)
  ∧ (method ∉ get_available_encodings
     ↔ ∃ msg, decode manchester_decode encoded_data method
              = Raises (ValueError msg)).
Proof.
  pose proof (decoding_methods_lookup method) as Hlookup.
  pose proof (decode_known encoded_data method) as Hknown.
  destruct (decide (method ∈ get_available_encodings)) as [Hin|Hout].
  - destruct (Hknown Hin) as (bits & out & H & _). rewrite H.
    split; split; try done; [by eauto|by intros [msg ?]].
  - apply Hlookup in Hout as Hnone.
    assert (∃ msg, decode manchester_decode encoded_data method
                   = Raises (ValueError msg)) as [msg Hraise]
      by (unfold decode, decoder in *; rewrite Hnone; eauto).
    rewrite Hraise.
    split; split; try done; [by intros [r ?]|by eauto].
Qed.

End AnyManchester.

(** X14. In both files [decode] raises a [ValueError] exactly when the
    scheme is not one of the seven names.  For a known scheme it returns for
    every list of integers, of any length: no decoder reads outside the
    list. *)
Theorem decode_fails_only_on_unknown_scheme (encoded_data : list Z)
  (method : string) :
  ((method ∈ get_available_encodings
    ↔ ∃ r, Teste1.decode encoded_data method = Returns r)
   ∧ (method ∉ get_available_encodings
      ↔ ∃ msg, Teste1.decode encoded_data method = Raises (ValueError msg)))
  ∧ ((method ∈ get_available_encodings
      ↔ ∃ r, Teste.decode encoded_data method = Returns r)
     ∧ (method ∉ get_available_encodings
        ↔ ∃ msg, Teste.decode encoded_data method = Raises (ValueError msg))).
Proof.
  split.
  - apply (decode_outcome _ teste1_manchester_decode_any).
  - apply (decode_outcome _ teste_manchester_decode_any).
Qed.

(** X15. Every decoder but the one of NRZ returns only 0s and 1s, whatever
    integers the level sequence holds. *)
Theorem decoders_return_bits (encoded_data : list Z) (method : string)
  (bits : list Z) (out : list output)
  (Hscheme : method ≠ "NRZ")
  (Hdecode : Teste1.decode encoded_data method = Returns (bits, out)
             ∨ Teste.decode encoded_data method = Returns (bits, out)) :
  Forall is_bit bits.
Proof.
  assert (Hin : method ∈ get_available_encodings).
  { destruct Hdecode as [H|H].
    - apply (decode_outcome _ teste1_manchester_decode_any encoded_data).
      eexists. exact H.
    - apply (decode_outcome _ teste_manchester_decode_any encoded_data).
      eexists. exact H. }
  destruct Hdecode as [H|H].
  - destruct (decode_known _ teste1_manchester_decode_any encoded_data method Hin)
      as (bits' & out' & H' & Hb).
    unfold Teste1.decode in H. rewrite H' in H. injection H as -> ->. auto.
  - destruct (decode_known _ teste_manchester_decode_any encoded_data method Hin)
      as (bits' & out' & H' & Hb).
    unfold Teste.decode in H. rewrite H' in H. injection H as -> ->. auto.
Qed.

Lemma decoders_return_bits_witness :
  "AMI"%string ≠ "NRZ"%string
  ∧ (Teste1.decode [1; -1; 0; 7] "AMI" = Returns ([1; 1; 0; 1], [])
     ∨ Teste.decode [1; -1; 0; 7] "AMI" = Returns ([1; 1; 0; 1], []))
  ∧ Forall is_bit [1; 1; 0; 1].
Proof.
  split; [discriminate|]. split; [left; reflexivity|].
  apply (decoders_return_bits [1; -1; 0; 7] "AMI" [1; 1; 0; 1] []);
    [discriminate|left; reflexivity].
Defined.

(** X16. How many bits the decoders return for a sequence of N levels: AMI
    N, the two biphase decoders one per complete pair, and Differential
    Manchester one less than that, none at all for fewer than four levels. *)
Theorem decoded_lengths (encoded_data : list Z) :
  (∃ bits, ami_decode encoded_data = Returns bits
           ∧ len bits = len encoded_data)
  ∧ (∃ bits, biphase_mark_decode encoded_data = Returns bits
             ∧ len bits = len encoded_data `div` 2)
  ∧ (∃ bits, biphase_space_decode encoded_data = Returns bits
             ∧ len bits = len encoded_data `div` 2)
  ∧ (∃ bits, differential_manchester_decode encoded_data = Returns bits
             ∧ len bits = Z.max 0 (len encoded_data `div` 2 - 1)).
Proof.
  destruct (ami_decode_any encoded_data) as (b1 & H1 & _ & L1).
  destruct (biphase_mark_decode_any encoded_data) as (b2 & H2 & _ & L2).
  destruct (biphase_space_decode_any encoded_data) as (b3 & H3 & _ & L3).
  destruct (differential_manchester_decode_any encoded_data)
    as (b4 & H4 & _ & L4).
  repeat split; eexists; split; eassumption.
Qed.

End AnyInput.

(** ** Which decoders pad *)

Section Padding.

(** C5, as the code has it.  Only the Manchester decoder of teste1.py (and
    teste2audio.py) pads: when the number of bits its loop decoded is not a
    multiple of 8 it appends 0-bits up to the next multiple of 8 and prints
    how many it added; otherwise it returns the bits as they are.  For the
    other six schemes [decode] returns what the scheme's decoder returned
    and prints nothing, and for N levels that is N bits for NRZ and AMI,
    N - 1 for NRZI (none for no level), one per complete pair for the two
    biphase schemes and one less than that for Differential Manchester
    (none below two pairs): nothing is appended, whatever the count is
    modulo 8. *)
Theorem only_manchester_decode_pads (encoded_data : list Z) :
  (∃ (raw : list Z) (printed : list output) (decoded : list Z)
     (stdout : list output),
      Teste1.manchester_decode_while encoded_data 0 [] [] = Returns (raw, printed)
      ∧ Teste1.decode encoded_data "Manchester" = Returns (decoded, stdout)
      ∧ len decoded `mod` 8 = 0
      ∧ 0 ≤ len decoded - len raw < 8
      ∧ decoded = raw ++ replicate (Z.to_nat (len decoded - len raw)) 0
      ∧ stdout = printed ++
                 if decide (len raw `mod` 8 = 0) then []
                 else [PaddingAdicionado (len decoded - len raw)])
  ∧ (nrz_decode encoded_data = Returns encoded_data
     ∧ Teste1.decode encoded_data "NRZ" = Returns (encoded_data, []))
  ∧ (∃ bits : list Z,
       nrzi_decode encoded_data = Returns bits
       ∧ Teste1.decode encoded_data "NRZI" = Returns (bits, [])
       ∧ len bits = Z.max 0 (len encoded_data - 1))
  ∧ (∃ bits : list Z,
       ami_decode encoded_data = Returns bits
       ∧ Teste1.decode encoded_data "AMI" = Returns (bits, [])
       ∧ len bits = len encoded_data)
  ∧ (∃ bits : list Z,
       biphase_mark_decode encoded_data = Returns bits
       ∧ Teste1.decode encoded_data "Biphase_Mark" = Returns (bits, [])
       ∧ len bits = len encoded_data `div` 2)
  ∧ (∃ bits : list Z,
       biphase_space_decode encoded_data = Returns bits
       ∧ Teste1.decode encoded_data "Biphase_Space" = Returns (bits, [])
       ∧ len bits = len encoded_data `div` 2)
  ∧ (∃ bits : list Z,
       differential_manchester_decode encoded_data = Returns bits
       ∧ Teste1.decode encoded_data "Differential_Manchester"
         = Returns (bits, [])
       ∧ len bits = Z.max 0 (len encoded_data `div` 2 - 1)).
Proof.
  destruct (teste1_decode_others encoded_data)
    as (Dnrz & Dnrzi & Dami & Dmark & Dspace & Ddiff).
  split.
  { pose proof (teste1_while_spec encoded_data [] [] []) as Hloop.
    cbn [app] in Hloop. change (len []) with 0 in Hloop.
    set (raw := recovered_bits 0 encoded_data) in *.
    set (printed := warnings 0 encoded_data) in *.
    set (zeros := (- len raw) `mod` 8).
    exists raw, printed, (raw ++ replicate (Z.to_nat zeros) 0),
      (printed ++ if decide (zeros = 0) then [] else [PaddingAdicionado zeros]).
    assert (Hz : 0 ≤ zeros < 8) by (apply Z.mod_pos_bound; lia).
    assert (Hlen : len (raw ++ replicate (Z.to_nat zeros) 0) - len raw = zeros)
      by (rewrite len_app, len_replicate; lia).
    split; [done|]. split.
    { rewrite teste1_decode_manchester, teste1_manchester_decode_spec.
      fold raw printed. by rewrite pad_spec. }
    rewrite Hlen. split.
    { rewrite len_app, len_replicate. unfold zeros.
      Z.to_euclidean_division_equations; lia. }
    split; [lia|]. split; [done|]. f_equal.
    destruct (decide (zeros = 0)) as [E|E],
      (decide (len raw `mod` 8 = 0)) as [E'|E'];
      try done; exfalso; unfold zeros in *;
      Z.to_euclidean_division_equations; lia. }
  split; [by rewrite Dnrz|].
  destruct (nrzi_decode_any encoded_data) as (b1 & H1 & _ & L1).
  destruct (ami_decode_any encoded_data) as (b2 & H2 & _ & L2).
  destruct (biphase_mark_decode_any encoded_data) as (b3 & H3 & _ & L3).
  destruct (biphase_space_decode_any encoded_data) as (b4 & H4 & _ & L4).
  destruct (differential_manchester_decode_any encoded_data)
    as (b5 & H5 & _ & L5).
  split; [exists b1; rewrite Dnrzi; unfold silent; by rewrite H1|].
  split; [exists b2; rewrite Dami; unfold silent; by rewrite H2|].
  split; [exists b3; rewrite Dmark; unfold silent; by rewrite H3|].
  split; [exists b4; rewrite Dspace; unfold silent; by rewrite H4|].
  exists b5. rewrite Ddiff. unfold silent. by rewrite H5.
Qed.

(** C5 as stated fails for each of the other six schemes: on the four
    levels 1, 0, 0, 1 (and on the single level 1 for NRZ) [decode] returns
    a number of bits that is not a multiple of 8, appends nothing and
    prints nothing. *)
Lemma six_decoders_leave_bits_unpadded :
  (Teste1.decode [1] "NRZ" = Returns ([1], []) ∧ len [1] `mod` 8 ≠ 0)
  ∧ (Teste1.decode [1; 0; 0; 1] "NRZ" = Returns ([1; 0; 0; 1], [])
     ∧ len [1; 0; 0; 1] `mod` 8 ≠ 0)
  ∧ (Teste1.decode [1; 0; 0; 1] "NRZI" = Returns ([1; 0; 1], [])
     ∧ len [1; 0; 1] `mod` 8 ≠ 0)
  ∧ (Teste1.decode [1; 0; 0; 1] "AMI" = Returns ([1; 0; 0; 1], [])
     ∧ len [1; 0; 0; 1] `mod` 8 ≠ 0)
  ∧ (Teste1.decode [1; 0; 0; 1] "Biphase_Mark" = Returns ([0; 0], [])
     ∧ len [0; 0] `mod` 8 ≠ 0)
  ∧ (Teste1.decode [1; 0; 0; 1] "Biphase_Space" = Returns ([1; 1], [])
     ∧ len [1; 1] `mod` 8 ≠ 0)
  ∧ (Teste1.decode [1; 0; 0; 1] "Differential_Manchester" = Returns ([0], [])
     ∧ len [0] `mod` 8 ≠ 0).
Proof. repeat split; (reflexivity || discriminate). Qed.

End Padding.

(** ** An unpaired last level *)

Section TrailingLevel.

Lemma even_step (a b : Z) (l : list Z) :
  len (a :: b :: l) `mod` 2 = 0 → len l `mod` 2 = 0.
Proof. rewrite !len_cons. Z.to_euclidean_division_equations; lia. Qed.

Lemma odd_single (x : Z) : len [x] `mod` 2 = 0 → False.
Proof. by vm_compute. Qed.

Lemma recovered_bits_trailing (levels : list Z) (x : Z) :
  len levels `mod` 2 = 0 →
  ∀ prev, recovered_bits prev (levels ++ [x]) = recovered_bits prev levels.
Proof.
  induction levels as [|y|a b levels IH] using pair_induction; intros He prev.
  - done.
  - by apply odd_single in He.
  - cbn [app recovered_bits]. by rewrite IH by by apply even_step in He.
Qed.

Lemma warnings_trailing (levels : list Z) (x : Z) :
  len levels `mod` 2 = 0 →
  ∀ i, warnings i (levels ++ [x]) = warnings i levels.
Proof.
  induction levels as [|y|a b levels IH] using pair_induction; intros He i.
  - done.
  - by apply odd_single in He.
  - cbn [app warnings]. by rewrite IH by by apply even_step in He.
Qed.

Lemma valid_bits_trailing (levels : list Z) (x : Z) :
  len levels `mod` 2 = 0 → valid_bits (levels ++ [x]) = valid_bits levels.
Proof.
  induction levels as [|y|a b levels IH] using pair_induction; intros He.
  - done.
  - by apply odd_single in He.
  - cbn [app valid_bits]. by rewrite IH by by apply even_step in He.
Qed.

Lemma errors_trailing (levels : list Z) (x : Z) :
  len levels `mod` 2 = 0 →
  ∀ i, errors i (levels ++ [x]) = errors i levels.
Proof.
  induction levels as [|y|a b levels IH] using pair_induction; intros He i.
  - done.
  - by apply odd_single in He.
  - cbn [app errors]. by rewrite IH by by apply even_step in He.
Qed.

Lemma start_transitions_trailing (levels : list Z) (x : Z) :
  len levels `mod` 2 = 0 →
  ∀ prev, start_transitions prev (levels ++ [x])
          = start_transitions prev levels.
Proof.
  induction levels as [|y|a b levels IH] using pair_induction; intros He prev.
  - done.
  - by apply odd_single in He.
  - cbn [app start_transitions]. by rewrite IH by by apply even_step in He.
Qed.

Lemma next_symbol_bits_trailing (levels : list Z) (x : Z) :
  len levels `mod` 2 = 0 →
  next_symbol_bits (levels ++ [x]) = next_symbol_bits levels.
Proof.
  induction levels as [|y|a b levels IH] using pair_induction; intros He.
  - done.
  - by apply odd_single in He.
  - apply even_step in He. specialize (IH He).
    destruct levels as [|c [|e levels]].
    + done.
    + by apply odd_single in He.
    + cbn [app] in *. by rewrite !next_symbol_bits_cons, IH.
Qed.

(** X17. The decoders that read the levels in pairs ignore an unpaired last
    level: after an even number of levels one more level changes neither
    the bits returned nor the lines printed. *)
Theorem unpaired_last_level_is_ignored (encoded_data : list Z) (x : Z)
  (Heven : len encoded_data `mod` 2 = 0) :
  Teste.manchester_decode (encoded_data ++ [x])
  = Teste.manchester_decode encoded_data
  ∧ Teste1.manchester_decode (encoded_data ++ [x])
    = Teste1.manchester_decode encoded_data
  ∧ biphase_mark_decode (encoded_data ++ [x])
    = biphase_mark_decode encoded_data
  ∧ biphase_space_decode (encoded_data ++ [x])
    = biphase_space_decode encoded_data
  ∧ differential_manchester_decode (encoded_data ++ [x])
    = differential_manchester_decode encoded_data.
Proof.
  split; [|split; [|split; [|split]]].
  - rewrite !teste_manchester_decode_spec.
    by rewrite valid_bits_trailing, errors_trailing.
  - rewrite !teste1_manchester_decode_spec.
    by rewrite recovered_bits_trailing, warnings_trailing.
  - destruct encoded_data as [|a [|b levels]].
    + by rewrite biphase_mark_decode_short.
    + by apply odd_single in Heven.
    + apply even_step in Heven. cbn [app].
      by rewrite !biphase_mark_decode_cons, start_transitions_trailing.
  - destruct encoded_data as [|a [|b levels]].
    + by rewrite biphase_space_decode_short.
    + by apply odd_single in Heven.
    + apply even_step in Heven. cbn [app].
      by rewrite !biphase_space_decode_cons, start_transitions_trailing.
  - rewrite !differential_manchester_decode_spec.
    by rewrite next_symbol_bits_trailing.
Qed.

Lemma unpaired_last_level_is_ignored_witness :
  len [1; 1; 0; 1] `mod` 2 = 0
  ∧ Teste.manchester_decode ([1; 1; 0; 1] ++ [5])
    = Teste.manchester_decode [1; 1; 0; 1]
  ∧ Teste1.manchester_decode ([1; 1; 0; 1] ++ [5])
    = Teste1.manchester_decode [1; 1; 0; 1]
  ∧ biphase_mark_decode ([1; 1; 0; 1] ++ [5])
    = biphase_mark_decode [1; 1; 0; 1]
  ∧ biphase_space_decode ([1; 1; 0; 1] ++ [5])
    = biphase_space_decode [1; 1; 0; 1]
  ∧ differential_manchester_decode ([1; 1; 0; 1] ++ [5])
    = differential_manchester_decode [1; 1; 0; 1].
Proof.
  split; [reflexivity|].
  apply (unpaired_last_level_is_ignored [1; 1; 0; 1] 5). reflexivity.
Defined.

End TrailingLevel.

(** ** What the channel does to a level *)

Section ChannelLevels.

Lemma flipped_is_bit (x : Z) : is_bit (flipped x).
Proof. unfold flipped. destruct (x =? 0); [by right|by left]. Qed.

Lemma simulate_channel_for_pointwise (random : nat → float)
  (noise_level : float) (encoded_data : list Z) :
  ∀ (calls : nat) (noisy_data : list Z),
    ∃ received,
      simulate_channel_for random noise_level encoded_data calls noisy_data
      = noisy_data ++ received
      ∧ Forall2 (λ sent got, got = sent ∨ got = flipped sent)
          encoded_data received.
Proof.
  induction encoded_data as [|bit encoded_data IH]; intros calls noisy_data.
  - exists []. split; [by rewrite app_nil_r|constructor].
  - cbn [simulate_channel_for].
    destruct (PrimFloat.ltb _ _);
      [destruct (bit =? 0) eqn:E0; [|destruct (bit =? 1) eqn:E1]|];
      match goal with
      | |- context [simulate_channel_for _ _ _ _ (noisy_data ++ [?v])] =>
          destruct (IH (S calls) (noisy_data ++ [v])) as (received & -> & HF);
          exists (v :: received); split; [by rewrite <- app_assoc|];
          constructor; [|done]
      end; unfold flipped; rewrite ?E0; auto.
Qed.

(** X18. Whatever the noise level and the random draws, the channel returns
    each level either unchanged or flipped (0 to 1, anything else to 0).
    So a sequence of 0s and 1s stays one, and a sequence over -1, 0 and 1
    stays one. *)
Theorem channel_keeps_or_flips (random : nat → float) (encoded_data : list Z)
  (noise_level : float) :
  Forall2 (λ sent got, got = sent ∨ got = flipped sent) encoded_data
    (simulate_channel random encoded_data noise_level)
  ∧ (Forall is_bit encoded_data →
     Forall is_bit (simulate_channel random encoded_data noise_level))
  ∧ (Forall is_ternary encoded_data →
     Forall is_ternary (simulate_channel random encoded_data noise_level)).
Proof.
  assert (H : Forall2 (λ sent got, got = sent ∨ got = flipped sent)
                encoded_data (simulate_channel random encoded_data noise_level)).
  { unfold simulate_channel. destruct (PrimFloat.leb _ _).
    - apply Forall2_same_length_lookup_2; [done|].
      intros i x y Hx Hy. left. congruence.
    - destruct (simulate_channel_for_pointwise random noise_level encoded_data
                  0%nat []) as (received & -> & HF). done. }
  split; [done|]. split; intros Halpha.
  - eapply Forall2_Forall_r; [exact H|].
    eapply Forall_impl; [exact Halpha|].
    intros sent Hs got [-> | ->]; [done|apply flipped_is_bit].
  - eapply Forall2_Forall_r; [exact H|].
    eapply Forall_impl; [exact Halpha|].
    intros sent Hs got [-> | ->]; [done|].
    destruct (flipped_is_bit sent) as [-> | ->]; unfold is_ternary; lia.
Qed.

End ChannelLevels.

(** ** [transmit] over a channel without noise *)

Section Transmit.

Lemma frame_bits (input : text) :
  Forall is_bit (concat (char_bits <$> input))
  ∧ len (concat (char_bits <$> input)) = 8 * len input.
Proof.
  induction input as [|c input [IHb IHl]]; [by split|].
  cbn [fmap list_fmap concat]. split.
  - apply Forall_app. split; [apply char_bits_are_bits|done].
  - rewrite len_app, len_cons, IHl. change (len (char_bits c)) with 8. lia.
Qed.

(** With a noise level at or below 0 the channel hands the levels on. *)
Lemma transmit_quiet (decode : list Z → string → result (list Z * list output))
  (random : nat → float) (input : text) (method : string) (noise_level : float) :
  PrimFloat.leb noise_level 0 = true →
  transmit decode random input method noise_level
  = (encoded ← encode (concat (char_bits <$> input)) method;
     '(decoded, stdout) ← decode encoded method;
     output_data ← binary_to_string decoded;
     Returns ((output_data, concat (char_bits <$> input), decoded), stdout)).
Proof.
  intros Hq. unfold transmit, simulate_channel.
  rewrite string_to_binary_spec, Hq. done.
Qed.

Lemma binary_to_string_frame (input : text) :
  Forall (λ c, 0 ≤ c < 256) input →
  binary_to_string (concat (char_bits <$> input)) = Returns input.
Proof.
  intros Hlatin. rewrite <- (app_nil_r (concat _)).
  rewrite binary_to_string_spec by (simpl; auto using char_bits_chunks; lia).
  by rewrite map_result_char_bits, mod_256_small.
Qed.

Lemma frame_needs_no_padding (input : text) :
  (- len (concat (char_bits <$> input))) `mod` 8 = 0.
Proof.
  destruct (frame_bits input) as [_ ->].
  Z.to_euclidean_division_equations; lia.
Qed.

(** X19. Over a channel without noise ([noise_level] at or below 0),
    [transmit] with Manchester, NRZ or AMI returns the text it was given,
    for every text whose code points are below 256; the decoded bits are
    the framed bits and nothing is printed.  This holds with the decoder of
    teste1.py and with the one of teste.py. *)
Theorem transmit_returns_the_text (random : nat → float) (input : text)
  (method : string) (noise_level : float)
  (Hquiet : PrimFloat.leb noise_level 0 = true)
  (Hlatin : Forall (λ c, 0 ≤ c < 256) input)
  (Hmethod : method ∈ ["Manchester"; "NRZ"; "AMI"]%string) :
  ∃ bits : list Z,
    string_to_binary input = Returns bits
    ∧ transmit Teste1.decode random input method noise_level
      = Returns ((input, bits, bits), [])
    ∧ transmit Teste.decode random input method noise_level
      = Returns ((input, bits, bits), []).
Proof.
  exists (concat (char_bits <$> input)).
  split; [apply string_to_binary_spec|].
  rewrite !transmit_quiet by done.
  destruct (frame_bits input) as [Hbits Hlen].
  pose proof (manchester_encode_valid (concat (char_bits <$> input))) as Hvalid.
  repeat (apply elem_of_cons in Hmethod as [-> | Hmethod]);
    [..|by apply elem_of_nil in Hmethod].
  - change (encode (concat (char_bits <$> input)) "Manchester")
      with (Returns (manchester_encode (concat (char_bits <$> input)))
            : result (list Z)).
    cbn [mbind result_bind].
    change (Teste1.decode ?d "Manchester") with (Teste1.manchester_decode d).
    change (Teste.decode ?d "Manchester") with (Teste.manchester_decode d).
    rewrite teste1_manchester_decode_spec, pad_spec, teste_manchester_decode_spec.
    rewrite (valid_symbols_agree _ Hvalid), (warnings_valid _ Hvalid),
      (errors_valid _ Hvalid), valid_bits_manchester_encode by done.
    rewrite frame_needs_no_padding. cbn [replicate Z.to_nat].
    rewrite app_nil_r. cbn [mbind result_bind app].
    by rewrite binary_to_string_frame.
  - change (encode (concat (char_bits <$> input)) "NRZ")
      with (Returns (nrz_encode (concat (char_bits <$> input)))
            : result (list Z)).
    cbn [mbind result_bind].
    change (Teste1.decode ?d "NRZ") with (Returns (d, @nil output)
                                          : result (list Z * list output)).
    change (Teste.decode ?d "NRZ") with (Returns (d, @nil output)
                                         : result (list Z * list output)).
    cbn [mbind result_bind]. unfold nrz_encode. rewrite nrz_encode_for_app.
    cbn [app mbind result_bind]. by rewrite binary_to_string_frame.
  - change (encode (concat (char_bits <$> input)) "AMI")
      with (Returns (ami_encode (concat (char_bits <$> input)))
            : result (list Z)).
    cbn [mbind result_bind].
    change (Teste1.decode ?d "AMI")
      with (Returns (ami_decode_for d [], @nil output)
            : result (list Z * list output)).
    change (Teste.decode ?d "AMI")
      with (Returns (ami_decode_for d [], @nil output)
            : result (list Z * list output)).
    cbn [mbind result_bind]. unfold ami_encode.
    rewrite ami_decode_encode by done.
    by rewrite binary_to_string_frame.
Qed.

Lemma transmit_returns_the_text_witness :
  PrimFloat.leb 0%float 0 = true
  ∧ Forall (λ c, 0 ≤ c < 256) [72; 105]
  ∧ "Manchester"%string ∈ ["Manchester"; "NRZ"; "AMI"]%string
  ∧ ∃ bits : list Z,
      string_to_binary [72; 105] = Returns bits
      ∧ transmit Teste1.decode (λ _, 0.5%float) [72; 105] "Manchester" 0%float
        = Returns (([72; 105], bits, bits), [])
      ∧ transmit Teste.decode (λ _, 0.5%float) [72; 105] "Manchester" 0%float
        = Returns (([72; 105], bits, bits), []).
Proof.
  assert (H : Forall (λ c, 0 ≤ c < 256) [72; 105])
    by (repeat apply Forall_cons_2; try lia; constructor).
  split; [reflexivity|]. split; [exact H|]. split; [by left|].
  apply (transmit_returns_the_text (λ _, 0.5%float) [72; 105] "Manchester"
           0%float); [reflexivity|exact H|by left].
Defined.

Lemma char_bits_head (c : Z) :
  0 ≤ c < 256 →
  char_bits c = (c `div` 128) :: low_bits c ∧ is_bit (c `div` 128).
Proof.
  intros Hc. split.
  - change (char_bits c) with (Z.land (Z.shiftr c 7) 1 :: low_bits c).
    f_equal. rewrite land_1, Z.shiftr_div_pow2 by lia. change (2 ^ 7) with 128.
    Z.to_euclidean_division_equations; lia.
  - unfold is_bit. Z.to_euclidean_division_equations; lia.
Qed.

Lemma low_bits_value (c : Z) (top : Z) :
  is_bit top → weighted 7 (top :: low_bits c) = top * 128 + c `mod` 128.
Proof.
  intros Htop. cbn. rewrite !land_1, !Z.shiftr_div_pow2 by lia.
  change (2 ^ 7) with 128. change (2 ^ 6) with 64. change (2 ^ 5) with 32.
  change (2 ^ 4) with 16. change (2 ^ 3) with 8. change (2 ^ 2) with 4.
  change (2 ^ 1) with 2. change (2 ^ 0) with 1.
  Z.to_euclidean_division_equations; lia.
Qed.

Lemma low_bits_are_bits (c : Z) : Forall is_bit (low_bits c).
Proof.
  unfold low_bits. apply Forall_fmap, Forall_forall. intros i _. simpl.
  rewrite land_1. unfold is_bit.
  pose proof (Z.mod_pos_bound (Z.shiftr c i) 2). lia.
Qed.

(** The text read back when the first bit of a frame is replaced. *)
Lemma binary_to_string_first_bit (top c : Z) (rest : text) :
  is_bit top → Forall (λ c, 0 ≤ c < 256) rest →
  binary_to_string (top :: low_bits c ++ concat (char_bits <$> rest))
  = Returns (top * 128 + c `mod` 128 :: rest).
Proof.
  intros Htop Hrest.
  change (top :: low_bits c ++ concat (char_bits <$> rest))
    with (concat ((top :: low_bits c) :: (char_bits <$> rest))).
  rewrite <- (app_nil_r (concat _)).
  rewrite binary_to_string_spec;
    [|apply Forall_cons_2; [done|apply char_bits_chunks]|simpl; lia].
  cbn [map_result]. unfold byte_char in *.
  rewrite low_bits_value by done.
  rewrite chr_in_range
    by (pose proof (Z.mod_pos_bound c 128); destruct Htop as [-> | ->]; lia).
  cbn [mbind result_bind].
  by rewrite map_result_char_bits, mod_256_small.
Qed.

(** X20. Over a channel without noise, [transmit] with Biphase-Mark clears
    the top bit of the first character and [transmit] with Biphase-Space
    sets it; the rest of the text comes back unchanged.  So Biphase-Mark
    returns a text that starts with a character below 128 as it was given,
    and changes one that starts with a character from 128 to 255. *)
Theorem transmit_biphase_first_character (random : nat → float) (c : Z)
  (rest : text) (noise_level : float)
  (Hquiet : PrimFloat.leb noise_level 0 = true)
  (Hlatin : Forall (λ c, 0 ≤ c < 256) (c :: rest)) :
  ∃ bits : list Z,
    string_to_binary (c :: rest) = Returns (c `div` 128 :: bits)
    ∧ transmit Teste1.decode random (c :: rest) "Biphase_Mark" noise_level
      = Returns ((c `mod` 128 :: rest, c `div` 128 :: bits, 0 :: bits), [])
    ∧ transmit Teste1.decode random (c :: rest) "Biphase_Space" noise_level
      = Returns ((128 + c `mod` 128 :: rest, c `div` 128 :: bits, 1 :: bits),
                 []).
Proof.
  apply Forall_cons in Hlatin as [Hc Hrest].
  destruct (char_bits_head c Hc) as [Hhead Htop].
  exists (low_bits c ++ concat (char_bits <$> rest)).
  assert (Hframe : concat (char_bits <$> c :: rest)
                   = c `div` 128 :: low_bits c ++ concat (char_bits <$> rest))
    by (cbn [fmap list_fmap concat]; by rewrite Hhead).
  assert (Hbits : Forall is_bit (low_bits c ++ concat (char_bits <$> rest))).
  { apply Forall_app. split; [apply low_bits_are_bits|apply frame_bits]. }
  split; [by rewrite string_to_binary_spec, Hframe|].
  rewrite !transmit_quiet by done. rewrite Hframe. split.
  - change (encode ?b "Biphase_Mark")
      with (Returns (biphase_mark_encode b) : result (list Z)).
    cbn [mbind result_bind].
    change (Teste1.decode ?d "Biphase_Mark")
      with (silent biphase_mark_decode d).
    unfold silent, biphase_mark_encode.
    rewrite biphase_mark_encode_for_cons. cbn zeta.
    rewrite biphase_mark_decode_cons, start_transitions_mark by done.
    cbn [mbind result_bind].
    rewrite (binary_to_string_first_bit 0) by (done || by left). done.
  - change (encode ?b "Biphase_Space")
      with (Returns (biphase_space_encode b) : result (list Z)).
    cbn [mbind result_bind].
    change (Teste1.decode ?d "Biphase_Space")
      with (silent biphase_space_decode d).
    unfold silent, biphase_space_encode.
    rewrite biphase_space_encode_for_cons. cbn zeta.
    rewrite biphase_space_decode_cons, start_transitions_space by done.
    cbn [mbind result_bind].
    rewrite (binary_to_string_first_bit 1) by (done || by right). done.
Qed.

Lemma transmit_biphase_first_character_witness :
  PrimFloat.leb 0%float 0 = true
  ∧ Forall (λ c, 0 ≤ c < 256) (200 :: [105])
  ∧ ∃ bits : list Z,
      string_to_binary (200 :: [105]) = Returns (200 `div` 128 :: bits)
      ∧ transmit Teste1.decode (λ _, 0.5%float) (200 :: [105]) "Biphase_Mark"
          0%float
        = Returns ((200 `mod` 128 :: [105], 200 `div` 128 :: bits, 0 :: bits),
                   [])
      ∧ transmit Teste1.decode (λ _, 0.5%float) (200 :: [105]) "Biphase_Space"
          0%float
        = Returns ((128 + 200 `mod` 128 :: [105], 200 `div` 128 :: bits,
                    1 :: bits), []).
Proof.
  assert (H : Forall (λ c, 0 ≤ c < 256) (200 :: [105]))
    by (repeat apply Forall_cons_2; try lia; constructor).
  split; [reflexivity|]. split; [exact H|].
  apply (transmit_biphase_first_character (λ _, 0.5%float) 200 [105] 0%float);
    [reflexivity|exact H].
Defined.

(** X21. Over a channel without noise, [transmit] with NRZI or with
    Differential Manchester does not return the text: the decoded bits are
    the framed bits without the first one, and the text read from them is
    one character shorter than the text given. *)
Theorem transmit_loses_a_character (random : nat → float) (input : text)
  (method : string) (noise_level : float)
  (Hquiet : PrimFloat.leb noise_level 0 = true)
  (Hnonempty : input ≠ [])
  (Hmethod : method ∈ ["NRZI"; "Differential_Manchester"]%string) :
  ∃ (first : Z) (bits : list Z) (output_data : text),
    string_to_binary input = Returns (first :: bits)
    ∧ transmit Teste1.decode random input method noise_level
      = Returns ((output_data, first :: bits, bits), [])
    ∧ len output_data = len input - 1.
Proof.
  destruct input as [|c rest]; [done|].
  destruct (frame_bits (c :: rest)) as [Hbits Hlen].
  cbn [fmap list_fmap concat] in Hbits, Hlen.
  change (char_bits c) with (Z.land (Z.shiftr c 7) 1 :: low_bits c) in Hbits, Hlen.
  cbn [app] in Hbits, Hlen. apply Forall_cons in Hbits as [_ Hbits].
  set (first := Z.land (Z.shiftr c 7) 1) in *.
  set (bits := low_bits c ++ concat (char_bits <$> rest)) in *.
  destruct (binary_to_string_bits_shape bits Hbits) as (output_data & Hout & Hl & _).
  exists first, bits, output_data.
  assert (Hframe : concat (char_bits <$> c :: rest) = first :: bits) by done.
  split; [by rewrite string_to_binary_spec, Hframe|].
  split.
  - rewrite transmit_quiet by done. rewrite Hframe.
    repeat (apply elem_of_cons in Hmethod as [-> | Hmethod]);
      [..|by apply elem_of_nil in Hmethod].
    + change (encode ?b "NRZI") with (Returns (nrzi_encode b) : result (list Z)).
      cbn [mbind result_bind].
      change (Teste1.decode ?d "NRZI") with (silent nrzi_decode d).
      unfold silent, nrzi_encode. rewrite nrzi_encode_for_cons. cbn zeta.
      rewrite nrzi_decode_cons, transitions_nrzi_encode by done.
      cbn [mbind result_bind]. by rewrite Hout.
    + change (encode ?b "Differential_Manchester")
        with (Returns (differential_manchester_encode b) : result (list Z)).
      cbn [mbind result_bind].
      change (Teste1.decode ?d "Differential_Manchester")
        with (silent differential_manchester_decode d).
      unfold silent, differential_manchester_encode.
      rewrite differential_manchester_decode_spec, next_symbol_bits_encode
        by done.
      cbn [mbind result_bind]. by rewrite Hout.
  - rewrite Hl. rewrite !len_cons in Hlen. rewrite !len_cons.
    pose proof (len_nonneg rest). Z.to_euclidean_division_equations; lia.
Qed.

Lemma transmit_loses_a_character_witness :
  PrimFloat.leb 0%float 0 = true
  ∧ [72; 105] ≠ []
  ∧ "NRZI"%string ∈ ["NRZI"; "Differential_Manchester"]%string
  ∧ ∃ (first : Z) (bits : list Z) (output_data : text),
      string_to_binary [72; 105] = Returns (first :: bits)
      ∧ transmit Teste1.decode (λ _, 0.5%float) [72; 105] "NRZI" 0%float
        = Returns ((output_data, first :: bits, bits), [])
      ∧ len output_data = len [72; 105] - 1.
Proof.
  split; [reflexivity|]. split; [discriminate|]. split; [by left|].
  apply (transmit_loses_a_character (λ _, 0.5%float) [72; 105] "NRZI" 0%float);
    [reflexivity|discriminate|by left].
Defined.

End Transmit.

(** ** One invalid symbol in a Manchester stream *)

Section InvalidSymbol.








End InvalidSymbol.
